(** * Reely: caption synthesis and timed composition

    A shallow embedding of the caption pipeline of the Reely backend
    ([app/services/caption_renderer.py], [app/services/video_processor.py],
    [app/models/schemas.py]) together with the properties stated for it.

    Conventions of the embedding.
    - A Python [str] is a [string]; each [ascii] is one character, a code
      point below 256 (Latin-1).  The builtins [str.split], [str.lower],
      [str.lstrip], [str.join] and [int(s, 16)] are modelled on that range.
    - A Python [int] is a [Z].  A Python [float] is a binary64 [float]
      (the primitive floats of Rocq compute exactly as CPython does).
    - Code under [try]/[except] is written in the [result] monad: a body
      that may raise returns [Raise e], and the handler is the [match] on
      that result.
    - [PIL.ImageDraw.text] is recorded: an image is its size together with
      the list of [draw.text] calls made on it, oldest first. *)

From Stdlib Require Import ZArith List Bool Ascii String Lia Floats.
From Stdlib Require Import DecimalString DecimalZ DecimalPos.
Import ListNotations.

Open Scope string_scope.
Open Scope list_scope.
Open Scope Z_scope.

(** ** Exceptions *)

Inductive exn : Type :=
| ValueError
| ZeroDivisionError
| OverflowError
| ValidationError
| FontError.

Inductive result (A : Type) : Type :=
| Ok (a : A)
| Raise (e : exn).

Arguments Ok {A} a.
Arguments Raise {A} e.

Definition bind {A B : Type} (r : result A) (k : A -> result B) : result B :=
  match r with
  | Ok a => k a
  | Raise e => Raise e
  end.

Notation "x <- r ;; k" := (bind r (fun x => k))
  (at level 61, r at next level, right associativity).

(** ** Python builtins *)

Module Py.

Definition ord (c : ascii) : Z := Z.of_N (N_of_ascii c).

Definition between (lo n hi : Z) : bool := (lo <=? n) && (n <=? hi).

(** [str.isspace] on one character: TAB..CR, FS..US, SPACE, NEL, NBSP. *)
Definition isspace (c : ascii) : bool :=
  let n := ord c in
  between 9 n 13 || between 28 n 32 || (n =? 133) || (n =? 160).

(** [str.split()] with no argument: the maximal runs of non-whitespace
    characters, in order.  [word] is the run being read. *)
Fixpoint split_from (s : string) (word : string) : list string :=
  match s with
  | EmptyString => if (String.length word =? 0)%nat then [] else [word]
  | String c s' =>
      if isspace c
      then if (String.length word =? 0)%nat
           then split_from s' EmptyString
           else word :: split_from s' EmptyString
      else split_from s' (word ++ String c EmptyString)%string
  end.

Definition split (s : string) : list string := split_from s EmptyString.

(** [sep.join(items)]. *)
Fixpoint join (sep : string) (items : list string) : string :=
  match items with
  | [] => EmptyString
  | [w] => w
  | w :: rest => (w ++ sep ++ join sep rest)%string
  end.

(** [str.lower] : A-Z and the Latin-1 capitals (all of 0xC0-0xDE but the
    multiplication sign 0xD7) move up by 32; nothing else changes. *)
Definition lower_char (c : ascii) : ascii :=
  let n := ord c in
  if between 65 n 90 || (between 192 n 222 && negb (n =? 215))
  then ascii_of_N (Z.to_N (n + 32))
  else c.

Fixpoint lower (s : string) : string :=
  match s with
  | EmptyString => EmptyString
  | String c s' => String (lower_char c) (lower s')
  end.

(** [s.lstrip(c)] for a single character [c]. *)
Fixpoint lstrip (c : ascii) (s : string) : string :=
  match s with
  | EmptyString => EmptyString
  | String a s' => if Ascii.eqb a c then lstrip c s' else s
  end.

(** [s[i:i+n]] for a non-negative [i]. *)
Definition slice (i n : nat) (s : string) : string := substring i n s.

(** *** [int(s, 16)]

    CPython first maps the non-ASCII whitespace of [s] to a blank, then
    reads: blanks, an optional sign, an optional [0x] (after which one
    underscore may stand), the digits with single underscores between
    them, blanks, and the end of the string. *)

Definition int_space (c : ascii) : bool :=
  let n := ord c in
  between 9 n 13 || (n =? 32) || (n =? 133) || (n =? 160).

Definition hex_digit (c : ascii) : option Z :=
  let n := ord c in
  if between 48 n 57 then Some (n - 48)
  else if between 97 n 102 then Some (n - 87)
  else if between 65 n 70 then Some (n - 55)
  else None.

Fixpoint skip_space (s : string) : string :=
  match s with
  | EmptyString => EmptyString
  | String c s' => if int_space c then skip_space s' else s
  end.

Definition read_sign (s : string) : bool * string :=
  match s with
  | String c s' =>
      if Ascii.eqb c "+" then (false, s')
      else if Ascii.eqb c "-" then (true, s')
      else (false, s)
  | EmptyString => (false, s)
  end.

Definition read_prefix16 (s : string) : string :=
  match s with
  | String z (String x r) =>
      if Ascii.eqb z "0" && (Ascii.eqb x "x" || Ascii.eqb x "X")
      then match r with
           | String u r' => if Ascii.eqb u "_" then r' else r
           | EmptyString => r
           end
      else s
  | _ => s
  end.

(** The digit loop: [acc] is the value read so far, [seen] whether a
    digit was read, [prev_us] whether the previous character was an
    underscore.  Returns the value and the unread rest. *)
Fixpoint scan_digits (s : string) (acc : Z) (seen prev_us : bool)
  : option (Z * string) :=
  match s with
  | EmptyString =>
      if prev_us then None else if seen then Some (acc, s) else None
  | String c s' =>
      match hex_digit c with
      | Some d => scan_digits s' (16 * acc + d) true false
      | None =>
          if Ascii.eqb c "_"
          then if prev_us then None else scan_digits s' acc seen true
          else if prev_us then None
               else if seen then Some (acc, s) else None
      end
  end.

Definition starts_with_underscore (s : string) : bool :=
  match s with
  | String c _ => Ascii.eqb c "_"
  | EmptyString => false
  end.

Definition int16 (s : string) : result Z :=
  let s1 := skip_space s in
  let '(neg, s2) := read_sign s1 in
  let s3 := read_prefix16 s2 in
  if starts_with_underscore s3 then Raise ValueError
  else match scan_digits s3 0 false false with
       | None => Raise ValueError
       | Some (v, rest) =>
           match skip_space rest with
           | EmptyString => Ok (if neg then - v else v)
           | String _ _ => Raise ValueError
           end
       end.

(** A word, as [split] produces them: not empty, no whitespace inside. *)
Fixpoint has_space (s : string) : bool :=
  match s with
  | EmptyString => false
  | String c s' => isspace c || has_space s'
  end.

Definition is_word (w : string) : bool :=
  negb (String.length w =? 0)%nat && negb (has_space w).

(** [range(lo, hi)]: the [n] integers from [lo] on. *)
Fixpoint range_from (lo : Z) (n : nat) : list Z :=
  match n with
  | O => []
  | S n' => lo :: range_from (lo + 1) n'
  end.

Definition range (lo hi : Z) : list Z := range_from lo (Z.to_nat (hi - lo)).

(** [float(i)] for an [int] below 2^63 in absolute value. *)
Definition float_of_int (i : Z) : float :=
  if i <? 0
  then PrimFloat.opp (PrimFloat.of_uint63 (Uint63.of_Z (- i)))
  else PrimFloat.of_uint63 (Uint63.of_Z i).

(** [int(x)] for a [float]: truncation towards zero; infinities and NaN
    raise. *)
Definition int_of_float (x : float) : result Z :=
  match Prim2SF x with
  | S754_zero _ => Ok 0
  | S754_infinity _ => Raise OverflowError
  | S754_nan => Raise ValueError
  | S754_finite s m e =>
      let a := Z.shiftl (Zpos m) e in
      Ok (if s then - a else a)
  end.

End Py.

(** ** [app/models/schemas.py] *)

Module Schemas.

(** [Field(default=..., ge=..., le=...)] of an [int] attribute. *)
Record IntField : Type := {
  default : Z;
  ge : Z;
  le : Z
}.

Definition font_size_field : IntField := {| default := 24; ge := 8; le := 72 |}.
Definition stroke_width_field : IntField := {| default := 2; ge := 0; le := 10 |}.
Definition padding_field : IntField := {| default := 10; ge := 0; le := 50 |}.

(** The check pydantic runs for [ge]/[le]. *)
Definition in_bounds (f : IntField) (v : Z) : bool := (ge f <=? v) && (v <=? le f).

Record CaptionStyle : Type := {
  font_type : string;
  font_size : Z;
  font_color : string;
  stroke_color : string;
  stroke_width : Z;
  padding : Z;
  position : string
}.

(** [CaptionStyle(font_type=..., ..., position=...)]: the [int] fields
    carry bounds, the [str] fields carry only a default and a description. *)
Definition new_CaptionStyle
    (font_type : string) (font_size : Z) (font_color stroke_color : string)
    (stroke_width padding : Z) (position : string) : result CaptionStyle :=
  if in_bounds font_size_field font_size
     && in_bounds stroke_width_field stroke_width
     && in_bounds padding_field padding
  then Ok {| font_type := font_type; font_size := font_size;
             font_color := font_color; stroke_color := stroke_color;
             stroke_width := stroke_width; padding := padding;
             position := position |}
  else Raise ValidationError.

(** Some bounded field is outside its bounds. *)
Definition out_of_bounds (font_size stroke_width padding : Z) : Prop :=
  font_size < 8 \/ 72 < font_size \/
  stroke_width < 0 \/ 10 < stroke_width \/
  padding < 0 \/ 50 < padding.

(** [CaptionStyle()] *)
Definition default_CaptionStyle : CaptionStyle :=
  {| font_type := "Arial"; font_size := default font_size_field;
     font_color := "#FFFFFF"; stroke_color := "#000000";
     stroke_width := default stroke_width_field;
     padding := default padding_field; position := "bottom" |}.

Record CaptionSegment : Type := {
  start_time : float;
  end_time : float;
  text : string;
  confidence : option float
}.

End Schemas.

(** ** [app/services/caption_renderer.py] *)

Module CaptionRenderer.
Import Schemas.

Definition rgb : Type := (Z * Z * Z)%type.

Definition rgb_eqb (a b : rgb) : bool :=
  let '(r1, g1, b1) := a in
  let '(r2, g2, b2) := b in
  (r1 =? r2) && (g1 =? g2) && (b1 =? b2).

(** What [font.getbbox] returns: [(left, top, right, bottom)]. *)
Definition bbox : Type := (Z * Z * Z * Z)%type.

Record ImageFont : Type := {
  getbbox : string -> result bbox
}.

(** One call [draw.text(xy, text, font=font, fill=fill)]. *)
Record text_call : Type := {
  xy : Z * Z;
  call_text : string;
  fill : rgb
}.

Record Image : Type := {
  size : Z * Z;
  calls : list text_call
}.

(** [Image.new('RGBA', size, (0, 0, 0, 0))] *)
Definition Image_new (size : Z * Z) : result Image :=
  if (fst size <? 0) || (snd size <? 0) then Raise ValueError
  else Ok {| size := size; calls := [] |}.

(** [draw.text(xy, s, font=font, fill=fill)] on the canvas whose earlier
    calls are [calls]; the font is the one loaded for the style. *)
Definition draw_text (calls : list text_call) (xy : Z * Z) (s : string) (fill : rgb)
  : list text_call :=
  calls ++ [{| xy := xy; call_text := s; fill := fill |}].

Definition white : rgb := (255, 255, 255).

(** The [try] body of [_hex_to_rgb]: the three slices are read in order,
    the first that [int] refuses raises. *)
Definition hex_to_rgb_try (hex_color : string) : result rgb :=
  let hex_color := Py.lstrip "#" hex_color in
  r <- Py.int16 (Py.slice 0 2 hex_color) ;;
  g <- Py.int16 (Py.slice 2 2 hex_color) ;;
  b <- Py.int16 (Py.slice 4 2 hex_color) ;;
  Ok (r, g, b).

(** [_hex_to_rgb]: the handler catches every exception and answers
    white. *)
Definition _hex_to_rgb (hex_color : string) : rgb :=
  match hex_to_rgb_try hex_color with
  | Ok c => c
  | Raise _ => white
  end.

(** [bbox = font.getbbox(s); bbox[2] - bbox[0]] *)
Definition text_width (font : ImageFont) (s : string) : result Z :=
  b <- getbbox font s ;;
  let '(x0, _, x1, _) := b in
  Ok (x1 - x0).

Definition nonempty {A : Type} (l : list A) : bool :=
  match l with
  | [] => false
  | _ :: _ => true
  end.

(** The [for word in words] loop of [_wrap_text], on the two lists it
    mutates. *)
Fixpoint wrap_loop (font : ImageFont) (max_width : Z) (words : list string)
    (lines current_line : list string) : result (list string * list string) :=
  match words with
  | [] => Ok (lines, current_line)
  | word :: rest =>
      let test_line := Py.join " " (current_line ++ [word]) in
      w <- text_width font test_line ;;
      if w <=? max_width
      then wrap_loop font max_width rest lines (current_line ++ [word])
      else if nonempty current_line
           then wrap_loop font max_width rest
                  (lines ++ [Py.join " " current_line]) [word]
           else wrap_loop font max_width rest (lines ++ [word]) current_line
  end.

(** The [try] body of [_wrap_text]. *)
Definition wrap_text_try (text : string) (font : ImageFont) (max_width : Z)
  : result (list string) :=
  let words := Py.split text in
  st <- wrap_loop font max_width words [] [] ;;
  let '(lines, current_line) := st in
  Ok (if nonempty current_line
      then lines ++ [Py.join " " current_line]
      else lines).

(** [_wrap_text]: when measuring fails the text comes back as one line. *)
Definition _wrap_text (text : string) (font : ImageFont) (max_width : Z)
  : list string :=
  match wrap_text_try text font max_width with
  | Ok lines => lines
  | Raise _ => [text]
  end.

(** The two nested [range(-stroke_width, stroke_width + 1)] loops that
    draw the outline of [s] around [(x, y)]. *)
Definition stroke_pass (calls : list text_call) (x y : Z) (s : string)
    (stroke_width : Z) (col : rgb) : list text_call :=
  fold_left
    (fun calls dx =>
       fold_left
         (fun calls dy =>
            if dx * dx + dy * dy <=? stroke_width * stroke_width
            then draw_text calls (x + dx, y + dy) s col
            else calls)
         (Py.range (- stroke_width) (stroke_width + 1)) calls)
    (Py.range (- stroke_width) (stroke_width + 1)) calls.

(** [get_caption_position]: on a [str] and [int]s no step of the body
    raises, so the handler of the source is never entered. *)
Definition get_caption_position (video_height caption_height : Z)
    (position : string) (padding : Z) : Z :=
  if String.eqb (Py.lower position) "top" then padding
  else if String.eqb (Py.lower position) "center"
       then (video_height - caption_height) / 2
       else video_height - caption_height - padding.

Section Rendering.

(** [self._load_font(font_type, font_size)]: the font the renderer finds
    (or falls back to) for a family and a size. *)
Variable _load_font : string -> Z -> ImageFont.

(** The [for line in lines] loop of [create_caption_image]. *)
Fixpoint draw_lines (font : ImageFont) (style : CaptionStyle) (video_width : Z)
    (font_color stroke_color : rgb) (line_height : Z)
    (lines : list string) (calls : list text_call) (y_offset : Z)
  : result (list text_call) :=
  match lines with
  | [] => Ok calls
  | line :: rest =>
      tw <- text_width font line ;;
      let x_offset := (video_width - tw) / 2 in
      let calls :=
        if 0 <? stroke_width style
        then stroke_pass calls x_offset y_offset line (stroke_width style) stroke_color
        else calls in
      let calls := draw_text calls (x_offset, y_offset) line font_color in
      draw_lines font style video_width font_color stroke_color line_height
        rest calls (y_offset + line_height)
  end.

(** [create_caption_image]: its handler logs and re-raises, so an
    exception of the body is the result. *)
Definition create_caption_image (text : string) (video_width video_height : Z)
    (style : CaptionStyle) (max_width_ratio : float) : result Image :=
  max_width <- Py.int_of_float (PrimFloat.mul (Py.float_of_int video_width) max_width_ratio) ;;
  let font := _load_font (font_type style) (font_size style) in
  let lines := _wrap_text text font max_width in
  let line_height := font_size style + 4 in
  let total_height := Z.of_nat (List.length lines) * line_height + padding style * 2 in
  caption_img <- Image_new (video_width, total_height) ;;
  let font_color := _hex_to_rgb (Schemas.font_color style) in
  let stroke_color := _hex_to_rgb (Schemas.stroke_color style) in
  drawn <- draw_lines font style video_width font_color stroke_color line_height
             lines (calls caption_img) (padding style) ;;
  Ok {| size := size caption_img; calls := drawn |}.

(** The [for word in words] loop of [create_word_highlighted_caption]. *)
Fixpoint draw_words (font : ImageFont) (style : CaptionStyle)
    (font_color stroke_color highlight_rgb : rgb) (current_word : string)
    (y_offset : Z) (words : list string) (calls : list text_call) (x_offset : Z)
  : result (list text_call) :=
  match words with
  | [] => Ok calls
  | word :: rest =>
      let word_color :=
        if String.eqb (Py.lower word) (Py.lower current_word)
        then highlight_rgb else font_color in
      let calls :=
        if 0 <? stroke_width style
        then let stroke_col :=
               if rgb_eqb word_color font_color then stroke_color else font_color in
             stroke_pass calls x_offset y_offset word (stroke_width style) stroke_col
        else calls in
      let calls := draw_text calls (x_offset, y_offset) word word_color in
      tw <- text_width font word ;;
      draw_words font style font_color stroke_color highlight_rgb current_word
        y_offset rest calls (x_offset + (tw + 4))
  end.

(** The [for line in lines] loop of [create_word_highlighted_caption]. *)
Fixpoint draw_highlighted_lines (font : ImageFont) (style : CaptionStyle)
    (font_color stroke_color highlight_rgb : rgb) (current_word : string)
    (line_height : Z) (lines : list string) (calls : list text_call) (y_offset : Z)
  : result (list text_call) :=
  match lines with
  | [] => Ok calls
  | line :: rest =>
      let words := Py.split line in
      let x_offset := padding style in
      calls <- draw_words font style font_color stroke_color highlight_rgb
                 current_word y_offset words calls x_offset ;;
      draw_highlighted_lines font style font_color stroke_color highlight_rgb
        current_word line_height rest calls (y_offset + line_height)
  end.

(** 0.8, the nearest binary64 value. *)
Definition ratio_0_8 : float := 0x1.999999999999ap-1%float.

Definition default_highlight_color : string := "#FFFF00".

Definition create_word_highlighted_caption (text current_word : string)
    (video_width video_height : Z) (style : CaptionStyle)
    (highlight_color : string) : result Image :=
  max_width <- Py.int_of_float (PrimFloat.mul (Py.float_of_int video_width) ratio_0_8) ;;
  let font := _load_font (font_type style) (font_size style) in
  let lines := _wrap_text text font max_width in
  let line_height := font_size style + 4 in
  let total_height := Z.of_nat (List.length lines) * line_height + padding style * 2 in
  caption_img <- Image_new (video_width, total_height) ;;
  let font_color := _hex_to_rgb (Schemas.font_color style) in
  let stroke_color := _hex_to_rgb (Schemas.stroke_color style) in
  let highlight_rgb := _hex_to_rgb highlight_color in
  drawn <- draw_highlighted_lines font style font_color stroke_color highlight_rgb
             current_word line_height lines (calls caption_img) (padding style) ;;
  Ok {| size := size caption_img; calls := drawn |}.

End Rendering.

End CaptionRenderer.

(** ** [app/services/video_processor.py] *)

Module VideoProcessor.
Import Schemas.

(** One entry [{"word": ..., "start": ..., "end": ...}]. *)
Record WordTiming : Type := {
  word : string;
  start : float;
  end_ : float
}.

(** [x / n] for a [float] and an [int]. *)
Definition truediv (x : float) (n : Z) : result float :=
  if n =? 0 then Raise ZeroDivisionError
  else Ok (PrimFloat.div x (Py.float_of_int n)).

(** The [for i, word in enumerate(words)] loop. *)
Fixpoint timings_loop (start_time time_per_word : float) (words : list string)
    (i : Z) (word_timings : list WordTiming) : list WordTiming :=
  match words with
  | [] => word_timings
  | w :: rest =>
      let start_time_i :=
        PrimFloat.add start_time (PrimFloat.mul (Py.float_of_int i) time_per_word) in
      let end_time_i :=
        PrimFloat.add start_time (PrimFloat.mul (Py.float_of_int (i + 1)) time_per_word) in
      timings_loop start_time time_per_word rest (i + 1)
        (word_timings ++ [{| word := w; start := start_time_i; end_ := end_time_i |}])
  end.

(** The [try] body of [_split_segment_into_words]. *)
Definition split_segment_try (segment : CaptionSegment) : result (list WordTiming) :=
  let words := Py.split (text segment) in
  let word_count := Z.of_nat (List.length words) in
  let segment_duration := PrimFloat.sub (end_time segment) (start_time segment) in
  time_per_word <- truediv segment_duration word_count ;;
  Ok (timings_loop (start_time segment) time_per_word words 0 []).

(** [_split_segment_into_words]: any exception gives the empty list. *)
Definition _split_segment_into_words (segment : CaptionSegment) : list WordTiming :=
  match split_segment_try segment with
  | Ok word_timings => word_timings
  | Raise _ => []
  end.

(** [_calculate_caption_position], the processor's own copy of the
    resolver. *)
Definition _calculate_caption_position (video_height caption_height : Z)
    (position : string) (padding : Z) : Z :=
  if String.eqb (Py.lower position) "top" then padding
  else if String.eqb (Py.lower position) "center"
       then (video_height - caption_height) / 2
       else video_height - caption_height - padding.

End VideoProcessor.

(** ** The layout rule of the specification, and the shapes the
    properties speak of *)

Module Reference.

(** Greedy fill, following the wording of the specification: a word joins
    the current line while [current + " " + word] still measures at most
    [max_width]; otherwise the current line is closed and a new one
    starts with the word; a single word that is itself too wide is a line
    of its own.  [current] is the text of the line being filled, empty
    when no word is on it yet. *)
Fixpoint greedy_fill (width : string -> Z) (max_width : Z)
    (words : list string) (current : string) : list string :=
  match words with
  | [] => if (String.length current =? 0)%nat then [] else [current]
  | word :: rest =>
      if (String.length current =? 0)%nat
      then if width word <=? max_width
           then greedy_fill width max_width rest word
           else word :: greedy_fill width max_width rest EmptyString
      else if width (current ++ " " ++ word)%string <=? max_width
           then greedy_fill width max_width rest (current ++ " " ++ word)%string
           else current :: greedy_fill width max_width rest word
  end.

(** The same rule without a case of its own for the too-wide word: the
    first word of a line is taken as it is, and the line is closed when
    the next word does not fit beside it. *)
Fixpoint greedy_plain (width : string -> Z) (max_width : Z)
    (words : list string) (current : string) : list string :=
  match words with
  | [] => if (String.length current =? 0)%nat then [] else [current]
  | word :: rest =>
      if (String.length current =? 0)%nat
      then greedy_plain width max_width rest word
      else if width (current ++ " " ++ word)%string <=? max_width
           then greedy_plain width max_width rest (current ++ " " ++ word)%string
           else current :: greedy_plain width max_width rest word
  end.

Definition greedy_wrap (width : string -> Z) (max_width : Z) (text : string)
  : list string :=
  greedy_fill width max_width (Py.split text) EmptyString.

(** A line respects the width limit, or is a single word of the text that
    is itself wider than the limit. *)
Definition fits (width : string -> Z) (max_width : Z) (words : list string)
    (line : string) : Prop :=
  width line <= max_width \/ (In line words /\ max_width < width line).

(** The calls one outline pass adds, in the order they are made. *)
Definition stroke_calls (x y : Z) (s : string) (sw : Z) (col : CaptionRenderer.rgb)
  : list CaptionRenderer.text_call :=
  flat_map
    (fun dx =>
       map (fun dy => {| CaptionRenderer.xy := (x + dx, y + dy);
                         CaptionRenderer.call_text := s;
                         CaptionRenderer.fill := col |})
         (filter (fun dy => dx * dx + dy * dy <=? sw * sw)
            (Py.range (- sw) (sw + 1))))
    (Py.range (- sw) (sw + 1)).

(** The fill colour and the outline colour the word loop of
    [create_word_highlighted_caption] picks for a word. *)
Definition word_color (font_color highlight_rgb : CaptionRenderer.rgb)
    (current_word word : string) : CaptionRenderer.rgb :=
  if String.eqb (Py.lower word) (Py.lower current_word)
  then highlight_rgb else font_color.

Definition stroke_col (font_color stroke_color highlight_rgb : CaptionRenderer.rgb)
    (current_word word : string) : CaptionRenderer.rgb :=
  if CaptionRenderer.rgb_eqb
       (word_color font_color highlight_rgb current_word word) font_color
  then stroke_color else font_color.

(** [outline] is a disc-shaped outline of [s] around [(x, y)]: it holds a
    copy of [s] in colour [col] at every integer offset [(dx, dy)] with
    [dx*dx + dy*dy <= stroke_width*stroke_width], and nothing else; for a stroke width
    of zero (or less) it is empty. *)
Definition disc_outline (stroke_width x y : Z) (s : string)
    (col : CaptionRenderer.rgb) (outline : list CaptionRenderer.text_call) : Prop :=
  forall c,
    In c outline <->
    exists dx dy,
      0 < stroke_width /\ dx * dx + dy * dy <= stroke_width * stroke_width /\
      c = {| CaptionRenderer.xy := (x + dx, y + dy);
             CaptionRenderer.call_text := s;
             CaptionRenderer.fill := col |}.

(** [block] draws [s] once: first its outline in [outline_col], then, on
    top and at the centre of the outline, [s] itself in [fill_col]. *)
Definition outlined_block (stroke_width : Z) (s : string)
    (outline_col fill_col : CaptionRenderer.rgb)
    (block : list CaptionRenderer.text_call) : Prop :=
  exists x y outline,
    block = outline ++ [{| CaptionRenderer.xy := (x, y);
                           CaptionRenderer.call_text := s;
                           CaptionRenderer.fill := fill_col |}] /\
    disc_outline stroke_width x y s outline_col outline.

(** The entry of the [i]-th word [w] of a segment that starts at
    [start_time] and gives each word [time_per_word] seconds. *)
Definition timing_at (start_time time_per_word : float) (i : Z) (w : string)
  : VideoProcessor.WordTiming :=
  {| VideoProcessor.word := w;
     VideoProcessor.start :=
       PrimFloat.add start_time (PrimFloat.mul (Py.float_of_int i) time_per_word);
     VideoProcessor.end_ :=
       PrimFloat.add start_time
         (PrimFloat.mul (Py.float_of_int (i + 1)) time_per_word) |}.

Fixpoint timings_from (start_time time_per_word : float) (i : Z)
    (words : list string) : list VideoProcessor.WordTiming :=
  match words with
  | [] => []
  | w :: rest =>
      timing_at start_time time_per_word i w
      :: timings_from start_time time_per_word (i + 1) rest
  end.

End Reference.

(** ** Sample inputs *)

Module Samples.
Import Schemas CaptionRenderer.

(** A fixed-pitch font: every character is 10 pixels wide. *)
Definition pitch10 (s : string) : Z := 10 * Z.of_nat (String.length s).

Definition mono_font : ImageFont :=
  {| getbbox := fun s => Ok (0, 0, pitch10 s, 12) |}.

(** A font whose [getbbox] fails on every text. *)
Definition broken_font : ImageFont :=
  {| getbbox := fun _ => Raise FontError |}.

Definition load_mono (_ : string) (_ : Z) : ImageFont := mono_font.

(** A style whose fill colour is the default highlight colour. *)
Definition yellow_style : CaptionStyle :=
  {| font_type := "Arial"; font_size := 24;
     font_color := "#FFFF00"; stroke_color := "#000000";
     stroke_width := 1; padding := 10; position := "bottom" |}.

Definition hello_segment : CaptionSegment :=
  {| start_time := 0%float; end_time := 10%float;
     text := "Hello world test"; confidence := None |}.

End Samples.

(** * The rest of the renderer, the timeline and the transcript *)

(** ** More Python builtins *)

Module PyExt.

(** What a body can raise besides the exceptions of [exn]. *)
Inductive raised : Type :=
| KeyError (key : string)
| IndexError
| Raised (e : exn).

Inductive outcome (A : Type) : Type :=
| Returned (a : A)
| Threw (r : raised).

Arguments Returned {A} a.
Arguments Threw {A} r.

Definition and_then {A B : Type} (o : outcome A) (k : A -> outcome B) : outcome B :=
  match o with
  | Returned a => k a
  | Threw r => Threw r
  end.

Definition of_result {A : Type} (r : result A) : outcome A :=
  match r with
  | Ok a => Returned a
  | Raise e => Threw (Raised e)
  end.

(** [d[key]] on a dict that may lack the key. *)
Definition getitem {A : Type} (key : string) (v : option A) : outcome A :=
  match v with
  | Some a => Returned a
  | None => Threw (KeyError key)
  end.

(** [s.lstrip()], [s.rstrip()] and [s.strip()] with no argument. *)
Fixpoint lstrip_ws (s : string) : string :=
  match s with
  | EmptyString => EmptyString
  | String c s' => if Py.isspace c then lstrip_ws s' else s
  end.

Fixpoint rstrip_ws (s : string) : string :=
  match s with
  | EmptyString => EmptyString
  | String c s' =>
      let r := rstrip_ws s' in
      if Py.isspace c && (String.length r =? 0)%nat then EmptyString
      else String c r
  end.

Definition strip (s : string) : string := rstrip_ws (lstrip_ws s).

(** [needle in hay] for two strings. *)
Fixpoint contains (needle hay : string) : bool :=
  String.prefix needle hay
  || match hay with
     | EmptyString => false
     | String _ hay' => contains needle hay'
     end.

(** [s.endswith(suffix)]. *)
Definition endswith (suffix s : string) : bool :=
  (String.length suffix <=? String.length s)%nat
  && String.eqb
       (substring (String.length s - String.length suffix) (String.length suffix) s)
       suffix.

(** [str(i)] for an [int]. *)
Definition str_of_int (i : Z) : string :=
  DecimalString.NilZero.string_of_int (Z.to_int i).

(** [os.path.join(a, b)] on POSIX. *)
Definition os_path_join (a b : string) : string :=
  match b with
  | String c _ =>
      if Ascii.eqb c "/" then b
      else if (String.length a =? 0)%nat || endswith "/" a then (a ++ b)%string
           else (a ++ "/" ++ b)%string
  | EmptyString =>
      if (String.length a =? 0)%nat || endswith "/" a then a
      else (a ++ "/")%string
  end.

End PyExt.

(** ** [app/services/caption_renderer.py]: fonts *)

Module FontLoading.
Import PyExt CaptionRenderer.

(** What the renderer asks of the machine it runs on: [os.path.exists],
    [os.listdir], [ImageFont.truetype] and [ImageFont.load_default]. *)
Record Machine : Type := {
  path_exists : string -> bool;
  listdir : string -> result (list string);
  truetype : string -> Z -> result ImageFont;
  load_default : ImageFont
}.

Definition font_paths : list string :=
  [ "/System/Library/Fonts/Arial.ttf";
    "/usr/share/fonts/truetype/dejavu/DejaVuSans.ttf";
    "C:/Windows/Fonts/arial.ttf";
    "C:/Windows/Fonts/calibri.ttf" ].

Definition font_dirs : list string :=
  [ "/System/Library/Fonts/"; "/usr/share/fonts/"; "C:/Windows/Fonts/" ].

(** The [for font_path in font_paths] loop of [_get_default_fonts]. *)
Fixpoint available_loop (m : Machine) (paths available_fonts : list string)
  : list string :=
  match paths with
  | [] => available_fonts
  | font_path :: rest =>
      if path_exists m font_path
      then available_loop m rest (available_fonts ++ [font_path])
      else available_loop m rest available_fonts
  end.

(** [_get_default_fonts]: nothing in its body raises. *)
Definition _get_default_fonts (m : Machine) : list string :=
  let available_fonts := available_loop m font_paths [] in
  if CaptionRenderer.nonempty available_fonts then available_fonts
  else available_fonts ++ ["default"].

(** The test [_find_font_path] makes on one directory entry. *)
Definition font_file_matches (font_name file : string) : bool :=
  contains (Py.lower font_name) (Py.lower file)
  && (endswith ".ttf" file || endswith ".otf" file).

(** The [for file in os.listdir(font_dir)] loop: the first matching entry
    ends the search. *)
Fixpoint find_in_files (font_name font_dir : string) (files : list string)
  : option string :=
  match files with
  | [] => None
  | file :: rest =>
      if font_file_matches font_name file
      then Some (os_path_join font_dir file)
      else find_in_files font_name font_dir rest
  end.

(** The [for font_dir in font_dirs] loop. *)
Fixpoint find_in_dirs (m : Machine) (font_name : string) (dirs : list string)
  : result (option string) :=
  match dirs with
  | [] => Ok None
  | font_dir :: rest =>
      if path_exists m font_dir
      then files <- listdir m font_dir ;;
           match find_in_files font_name font_dir files with
           | Some p => Ok (Some p)
           | None => find_in_dirs m font_name rest
           end
      else find_in_dirs m font_name rest
  end.

(** [_find_font_path]: an exception of the search answers [None]. *)
Definition _find_font_path (m : Machine) (font_name : string) : option string :=
  match find_in_dirs m font_name font_dirs with
  | Ok found => found
  | Raise _ => None
  end.

(** The renderer object: [self.font_cache] is a dict from cache keys to
    fonts, [self.default_fonts] the list found when it was built. *)
Record Renderer : Type := {
  font_cache : string -> option ImageFont;
  default_fonts : list string
}.

Definition empty_cache : string -> option ImageFont := fun _ => None.

(** [self.font_cache[key] = font] *)
Definition cache_set (cache : string -> option ImageFont) (key : string)
    (font : ImageFont) : string -> option ImageFont :=
  fun k => if String.eqb k key then Some font else cache k.

(** [CaptionRenderer()] *)
Definition new_Renderer (m : Machine) : Renderer :=
  {| font_cache := empty_cache; default_fonts := _get_default_fonts m |}.

(** [f"{font_type}_{font_size}"] *)
Definition cache_key (font_type : string) (font_size : Z) : string :=
  (font_type ++ "_" ++ str_of_int font_size)%string.

(** [if font_path: font = ImageFont.truetype(font_path, font_size)
    else: font = ImageFont.load_default()]: [None] and the empty string
    are both false. *)
Definition font_at (m : Machine) (font_path : option string) (font_size : Z)
  : outcome ImageFont :=
  match font_path with
  | Some p =>
      if (String.length p =? 0)%nat then Returned (load_default m)
      else of_result (truetype m p font_size)
  | None => Returned (load_default m)
  end.

(** The [try] body of [_load_font] after a cache miss, up to the font it
    loads. *)
Definition load_font_try (m : Machine) (self : Renderer) (font_type : string)
    (font_size : Z) : outcome ImageFont :=
  if negb (String.eqb (Py.lower font_type) "default")
     && negb (String.eqb (Py.lower font_type) "arial")
  then font_at m (_find_font_path m font_type) font_size
  else match default_fonts self with
       | [] => Threw IndexError
       | first :: _ =>
           let font_path :=
             if negb (String.eqb first "default") then Some first else None in
           font_at m font_path font_size
       end.

(** [_load_font]: returns the font and the renderer with its cache as the
    call leaves it.  A hit returns before the [try]; a miss stores what
    the body loaded, or the default font when the body raised. *)
Definition _load_font (m : Machine) (self : Renderer) (font_type : string)
    (font_size : Z) : ImageFont * Renderer :=
  let key := cache_key font_type font_size in
  match font_cache self key with
  | Some font => (font, self)
  | None =>
      let font :=
        match load_font_try m self font_type font_size with
        | Returned font => font
        | Threw _ => load_default m
        end in
      (font, {| font_cache := cache_set (font_cache self) key font;
                default_fonts := default_fonts self |})
  end.

(** [cleanup_font_cache] *)
Definition cleanup_font_cache (self : Renderer) : Renderer :=
  {| font_cache := empty_cache; default_fonts := default_fonts self |}.

End FontLoading.

(** ** [app/services/video_processor.py]: the overlay timeline *)

Module Timeline.
Import Schemas CaptionRenderer VideoProcessor.

(** An [ImageClip] as the processor sets it up: the caption image,
    [set_start], [duration] and the vertical part of
    [set_position(('center', y))].  The image is saved to a temporary file
    from which the clip reads it back at once; that file is taken to be
    written and read without error. *)
Record ImageClip : Type := {
  clip_image : Image;
  clip_start : float;
  clip_duration : float;
  clip_y : Z
}.

Section Processor.

(** The font loader of the renderer, and the video library:
    [VideoFileClip(path).size] and
    [CompositeVideoClip([video] + clips).write_videofile(output_path, ...)]. *)
Variable _load_font : string -> Z -> ImageFont.
Variable video_size : string -> result (Z * Z).
Variable write_videofile : string -> list ImageClip -> string -> result unit.

(** The [for segment in caption_segments] loop of
    [create_captioned_video]. *)
Fixpoint caption_clips_loop (video_width video_height : Z)
    (caption_style : CaptionStyle) (segments : list CaptionSegment)
    (caption_clips : list ImageClip) : result (list ImageClip) :=
  match segments with
  | [] => Ok caption_clips
  | segment :: rest =>
      caption_img <- create_caption_image _load_font (text segment)
                       video_width video_height caption_style ratio_0_8 ;;
      let y_position :=
        _calculate_caption_position video_height (snd (size caption_img))
          (position caption_style) (padding caption_style) in
      let caption_clip :=
        {| clip_image := caption_img;
           clip_start := start_time segment;
           clip_duration := PrimFloat.sub (end_time segment) (start_time segment);
           clip_y := y_position |} in
      caption_clips_loop video_width video_height caption_style rest
        (caption_clips ++ [caption_clip])
  end.

(** [create_captioned_video]: its handler logs and re-raises. *)
Definition create_captioned_video (video_path : string)
    (caption_segments : list CaptionSegment) (caption_style : CaptionStyle)
    (output_path : string) : result string :=
  sz <- video_size video_path ;;
  let '(video_width, video_height) := sz in
  caption_clips <- caption_clips_loop video_width video_height caption_style
                     caption_segments [] ;;
  _ <- write_videofile video_path caption_clips output_path ;;
  Ok output_path.

(** The [for word_timing in word_timings] loop of
    [create_word_highlighted_video]. *)
Fixpoint word_clips_loop (video_width video_height : Z)
    (caption_style : CaptionStyle) (segment : CaptionSegment)
    (word_timings : list WordTiming) (caption_clips : list ImageClip)
  : result (list ImageClip) :=
  match word_timings with
  | [] => Ok caption_clips
  | word_timing :: rest =>
      caption_img <- create_word_highlighted_caption _load_font (text segment)
                       (word word_timing) video_width video_height caption_style
                       default_highlight_color ;;
      let y_position :=
        _calculate_caption_position video_height (snd (size caption_img))
          (position caption_style) (padding caption_style) in
      let caption_clip :=
        {| clip_image := caption_img;
           clip_start := start word_timing;
           clip_duration := PrimFloat.sub (end_ word_timing) (start word_timing);
           clip_y := y_position |} in
      word_clips_loop video_width video_height caption_style segment rest
        (caption_clips ++ [caption_clip])
  end.

(** The [for segment in caption_segments] loop around it. *)
Fixpoint highlight_clips_loop (video_width video_height : Z)
    (caption_style : CaptionStyle) (segments : list CaptionSegment)
    (caption_clips : list ImageClip) : result (list ImageClip) :=
  match segments with
  | [] => Ok caption_clips
  | segment :: rest =>
      let word_timings := _split_segment_into_words segment in
      caption_clips <- word_clips_loop video_width video_height caption_style
                         segment word_timings caption_clips ;;
      highlight_clips_loop video_width video_height caption_style rest caption_clips
  end.

(** [create_word_highlighted_video]: its handler logs and re-raises. *)
Definition create_word_highlighted_video (video_path : string)
    (caption_segments : list CaptionSegment) (caption_style : CaptionStyle)
    (output_path : string) : result string :=
  sz <- video_size video_path ;;
  let '(video_width, video_height) := sz in
  caption_clips <- highlight_clips_loop video_width video_height caption_style
                     caption_segments [] ;;
  _ <- write_videofile video_path caption_clips output_path ;;
  Ok output_path.

End Processor.

End Timeline.

(** ** [app/services/transcription.py]: from the recogniser to segments *)

Module Transcription.
Import PyExt Schemas.

(** One item of [whisper_result["segments"]]: a dict in which any of the
    keys may be missing. *)
Record WhisperSegment : Type := {
  seg_start : option float;
  seg_end : option float;
  seg_text : option string;
  seg_avg_logprob : option float
}.

(** [whisper_result], with or without its ["segments"] key. *)
Record WhisperResult : Type := {
  result_segments : option (list WhisperSegment)
}.

(** The [for segment in ...] loop of [_convert_to_segments]. *)
Fixpoint convert_loop (items : list WhisperSegment) (segments : list CaptionSegment)
  : outcome (list CaptionSegment) :=
  match items with
  | [] => Returned segments
  | segment :: rest =>
      and_then (getitem "start" (seg_start segment)) (fun s =>
      and_then (getitem "end" (seg_end segment)) (fun e =>
      and_then (getitem "text" (seg_text segment)) (fun t =>
      let caption_segment :=
        {| start_time := s; end_time := e; text := strip t;
           confidence := seg_avg_logprob segment |} in
      convert_loop rest (segments ++ [caption_segment]))))
  end.

(** [_convert_to_segments]: its handler logs and re-raises. *)
Definition _convert_to_segments (whisper_result : WhisperResult)
  : outcome (list CaptionSegment) :=
  let items :=
    match result_segments whisper_result with
    | Some l => l
    | None => []
    end in
  convert_loop items [].

End Transcription.

(** ** Checks by enumeration *)

Module Enumerate.

(** The 256 characters. *)
Definition all_ascii : list ascii := map ascii_of_nat (seq 0 256).

(** What [int(x, 16)] gives on the string [x], if anything, lies between
    [lo] and [hi]. *)
Definition int16_within (lo hi : Z) (x : string) : bool :=
  match Py.int16 x with
  | Ok v => (lo <=? v) && (v <=? hi)
  | Raise _ => true
  end.

Definition short_strings_within (lo hi : Z) : bool :=
  int16_within lo hi EmptyString
  && forallb
       (fun a =>
          int16_within lo hi (String a EmptyString)
          && forallb (fun b => int16_within lo hi (String a (String b EmptyString)))
               all_ascii)
       all_ascii.

End Enumerate.

(** ** Relations and samples for the further properties *)

Module Shapes.
Import CaptionRenderer FontLoading.

(** Two runs agree: both raise the same exception, or both return and
    the returned values are related. *)
Definition agree {A : Type} (R : A -> A -> Prop) (r1 r2 : result A) : Prop :=
  match r1, r2 with
  | Ok a, Ok b => R a b
  | Raise e1, Raise e2 => e1 = e2
  | _, _ => False
  end.

(** [c in s] for a character. *)
Fixpoint has_char (c : ascii) (s : string) : bool :=
  match s with
  | EmptyString => false
  | String a s' => Ascii.eqb a c || has_char c s'
  end.

(** A fixed-pitch font of 12 pixels per character. *)
Definition wide_font : ImageFont :=
  {| getbbox := fun s => Ok (0, 0, 12 * Z.of_nat (String.length s), 14) |}.

(** A machine with one font directory, which holds a folder, a text file
    and two fonts, and with the DejaVu font of the default list. *)
Definition linux_machine : Machine :=
  {| path_exists := fun p =>
       String.eqb p "/usr/share/fonts/"
       || String.eqb p "/usr/share/fonts/truetype/dejavu/DejaVuSans.ttf";
     listdir := fun d =>
       if String.eqb d "/usr/share/fonts/"
       then Ok ["truetype"; "README.txt"; "Roboto-Regular.ttf"; "ROBOTO-BOLD.TTF"]
       else Raise FontError;
     truetype := fun p _ =>
       if String.eqb p "/usr/share/fonts/Roboto-Regular.ttf" then Ok wide_font
       else if String.eqb p "/usr/share/fonts/truetype/dejavu/DejaVuSans.ttf"
            then Ok Samples.mono_font
            else Raise FontError;
     load_default := Samples.broken_font |}.

(** A machine whose Linux font directory exists but cannot be listed,
    and whose Windows font directory holds Arial. *)
Definition locked_machine : Machine :=
  {| path_exists := fun p =>
       String.eqb p "/usr/share/fonts/" || String.eqb p "C:/Windows/Fonts/";
     listdir := fun d =>
       if String.eqb d "C:/Windows/Fonts/" then Ok ["arial.ttf"]
       else Raise FontError;
     truetype := fun _ _ => Ok Samples.mono_font;
     load_default := Samples.broken_font |}.

(** A machine without any font file or directory. *)
Definition bare_machine : Machine :=
  {| path_exists := fun _ => false;
     listdir := fun _ => Raise FontError;
     truetype := fun _ _ => Raise FontError;
     load_default := Samples.mono_font |}.

(** A video of 1920 by 1080 pixels and an encoder that accepts every job. *)
Definition video_1080p (_ : string) : result (Z * Z) := Ok (1920, 1080).

Definition encoder_ok (_ : string) (_ : list Timeline.ImageClip) (_ : string)
  : result unit := Ok tt.

(** Items of a recogniser result: a spoken one, a silent one, and one
    whose end is missing. *)
Definition item_hello : Transcription.WhisperSegment :=
  {| Transcription.seg_start := Some 0%float;
     Transcription.seg_end := Some 2%float;
     Transcription.seg_text := Some " Hello world ";
     Transcription.seg_avg_logprob := None |}.

Definition item_blank : Transcription.WhisperSegment :=
  {| Transcription.seg_start := Some 2%float;
     Transcription.seg_end := Some 3%float;
     Transcription.seg_text := Some "  ";
     Transcription.seg_avg_logprob := None |}.

Definition item_no_end : Transcription.WhisperSegment :=
  {| Transcription.seg_start := Some 3%float;
     Transcription.seg_end := None;
     Transcription.seg_text := Some "tail";
     Transcription.seg_avg_logprob := None |}.

Definition two_items : Transcription.WhisperResult :=
  {| Transcription.result_segments := Some [item_hello; item_blank] |}.

End Shapes.

(** * Properties *)

(** ** Colour parsing *)

Module HexFacts.
Import CaptionRenderer.

Lemma hex_to_rgb_total (s : string) :
  (exists c, hex_to_rgb_try s = Ok c /\ _hex_to_rgb s = c) \/
  (exists e, hex_to_rgb_try s = Raise e /\ _hex_to_rgb s = white).
Proof.
  unfold _hex_to_rgb.
  destruct (hex_to_rgb_try s) as [c | e]; [left | right]; eauto.
Qed.

Ltac each_char a := destruct a as [[] [] [] [] [] [] [] []].

Lemma hex_digit_plain (a : ascii) (x : Z) :
  Py.hex_digit a = Some x ->
  Py.int_space a = false /\ Ascii.eqb a "+" = false /\ Ascii.eqb a "-" = false
  /\ Ascii.eqb a "_" = false /\ Ascii.eqb a "#" = false
  /\ Ascii.eqb a "x" = false /\ Ascii.eqb a "X" = false /\ 0 <= x < 16.
Proof.
  each_char a; vm_compute; intros H; try discriminate H;
    injection H as <-; repeat split; congruence.
Qed.

(** Two hexadecimal digits read as their base-16 value. *)
Lemma int16_two_digits (a b : ascii) (x y : Z) :
  Py.hex_digit a = Some x -> Py.hex_digit b = Some y ->
  Py.int16 (String a (String b EmptyString)) = Ok (16 * x + y).
Proof.
  intros Ha Hb.
  destruct (hex_digit_plain a x Ha) as (Sa & Pa & Ma & Ua & _ & _ & _ & _).
  destruct (hex_digit_plain b y Hb) as (_ & _ & _ & _ & _ & Xb & XXb & _).
  unfold Py.int16. cbn [Py.skip_space]. rewrite Sa.
  unfold Py.read_sign. rewrite Pa, Ma.
  unfold Py.read_prefix16. rewrite Xb, XXb, andb_false_r.
  unfold Py.starts_with_underscore. rewrite Ua.
  cbn [Py.scan_digits]. rewrite Ha, Hb. cbn [Py.skip_space].
  reflexivity.
Qed.

Lemma lstrip_hash_digit (a : ascii) (x : Z) (s : string) :
  Py.hex_digit a = Some x -> Py.lstrip "#" (String a s) = String a s.
Proof.
  intros Ha. destruct (hex_digit_plain a x Ha) as (_ & _ & _ & _ & Hh & _).
  cbn [Py.lstrip]. now rewrite Hh.
Qed.

(** Six hexadecimal digits, with or without a leading [#], are read as
    the three byte values they spell. *)
Lemma hex_to_rgb_six_digits (a b c d e f : ascii) (va vb vc vd ve vf : Z) :
  Py.hex_digit a = Some va -> Py.hex_digit b = Some vb ->
  Py.hex_digit c = Some vc -> Py.hex_digit d = Some vd ->
  Py.hex_digit e = Some ve -> Py.hex_digit f = Some vf ->
  let digits :=
    String a (String b (String c (String d (String e (String f EmptyString))))) in
  _hex_to_rgb digits = (16 * va + vb, 16 * vc + vd, 16 * ve + vf) /\
  _hex_to_rgb (String "#" digits) = (16 * va + vb, 16 * vc + vd, 16 * ve + vf).
Proof.
  intros Ha Hb Hc Hd He Hf digits.
  assert (Hd0 : _hex_to_rgb digits = (16 * va + vb, 16 * vc + vd, 16 * ve + vf)).
  { unfold _hex_to_rgb, hex_to_rgb_try, digits.
    rewrite (lstrip_hash_digit a va _ Ha).
    cbn [Py.slice substring].
    rewrite (int16_two_digits a b va vb Ha Hb),
            (int16_two_digits c d vc vd Hc Hd),
            (int16_two_digits e f ve vf He Hf).
    reflexivity. }
  split; [exact Hd0 |].
  unfold _hex_to_rgb, hex_to_rgb_try in *.
  change (Py.lstrip "#" (String "#" digits)) with (Py.lstrip "#" digits).
  exact Hd0.
Qed.

(** The values quoted in the specification and in the test-suite. *)
Lemma hex_to_rgb_examples :
  _hex_to_rgb "#FFFFFF" = (255, 255, 255) /\
  _hex_to_rgb "FF0000" = (255, 0, 0) /\
  _hex_to_rgb "#00FF00" = (0, 255, 0) /\
  _hex_to_rgb "bogus" = (255, 255, 255) /\
  _hex_to_rgb "invalid" = (255, 255, 255).
Proof. repeat split; reflexivity. Qed.

(** A string too short to hold a third pair of digits resolves to white. *)
Lemma hex_to_rgb_short (s : string) :
  (String.length (Py.lstrip "#" s) <= 4)%nat -> _hex_to_rgb s = white.
Proof.
  intros Hlen. unfold _hex_to_rgb, hex_to_rgb_try.
  set (h := Py.lstrip "#" s) in *.
  assert (Hs : Py.slice 4 2 h = EmptyString).
  { unfold Py.slice.
    destruct h as [| c0 [| c1 [| c2 [| c3 [| c4 h]]]]]; cbn in *; try reflexivity; lia. }
  rewrite Hs.
  destruct (Py.int16 (Py.slice 0 2 h)); cbn; [| reflexivity].
  destruct (Py.int16 (Py.slice 2 2 h)); cbn; reflexivity.
Qed.

(** C4: the parser resolves a malformed colour to white only when one of
    its first three character pairs fails to read as a number.  A string
    of five digits, one of eight, or one whose pairs carry a sign or a
    blank is not a 6-hex-digit string and still yields a colour other
    than white. *)
Theorem hex_to_rgb_accepts_malformed :
  _hex_to_rgb "12345" = (18, 52, 5) /\
  _hex_to_rgb "#FF0000AA" = (255, 0, 0) /\
  _hex_to_rgb "+1-2 3" = (1, -2, 3) /\
  _hex_to_rgb "12345" <> white /\
  _hex_to_rgb "#FF0000AA" <> white /\
  _hex_to_rgb "+1-2 3" <> white.
Proof. repeat split; vm_compute; congruence. Qed.

End HexFacts.

(** ** Vertical placement *)

Module PositionFacts.
Import CaptionRenderer.

(** [Z.div] by 2 is the floor of the half, as [//] is in Python. *)
Lemma floor_half (n : Z) : 2 * (n / 2) <= n < 2 * (n / 2) + 2.
Proof.
  pose proof (Z.div_mod n 2 ltac:(lia)) as E.
  pose proof (Z.mod_pos_bound n 2 ltac:(lia)) as B.
  lia.
Qed.

(** C7: the resolver returns the padding for "top", the floor of half the
    free height for "center", and [video_height - caption_height - padding]
    for "bottom" and for every mode it does not recognise; nothing is
    clamped, so the result can be negative or lie beyond the frame. *)
Theorem get_caption_position_cases (H h p : Z) (mode : string) :
  get_caption_position H h "top" p = p /\
  get_caption_position H h "center" p = (H - h) / 2 /\
  2 * get_caption_position H h "center" p <= H - h
    < 2 * get_caption_position H h "center" p + 2 /\
  get_caption_position H h "bottom" p = H - h - p /\
  (Py.lower mode <> "top" -> Py.lower mode <> "center" ->
   get_caption_position H h mode p = H - h - p) /\
  get_caption_position 1080 100 "top" 20 = 20 /\
  get_caption_position 1080 100 "center" 20 = 490 /\
  get_caption_position 1080 100 "bottom" 20 = 960 /\
  get_caption_position 100 300 "bottom" 20 = -220 /\
  get_caption_position 100 300 "center" 20 = -100 /\
  get_caption_position 100 20 "top" 500 = 500.
Proof.
  repeat split; try reflexivity.
  - apply floor_half.
  - apply floor_half.
  - intros Ht Hc. unfold get_caption_position.
    destruct (String.eqb_spec (Py.lower mode) "top") as [E | _]; [contradiction |].
    destruct (String.eqb_spec (Py.lower mode) "center") as [E | _]; [contradiction |].
    reflexivity.
Qed.

Lemma get_caption_position_cases_witness :
  get_caption_position 1080 100 "left" 20 = 960.
Proof.
  apply (get_caption_position_cases 1080 100 20 "left");
    vm_compute; discriminate.
Defined.

(** The video processor carries its own copy of the resolver. *)
Lemma calculate_caption_position_same (H h p : Z) (mode : string) :
  VideoProcessor._calculate_caption_position H h mode p
  = get_caption_position H h mode p.
Proof. reflexivity. Qed.

(** Modes are compared after lowering their case. *)
Lemma get_caption_position_case_insensitive (H h p : Z) (mode : string) :
  get_caption_position H h (Py.lower mode) p = get_caption_position H h mode p.
Proof.
  unfold get_caption_position.
  assert (Hidem : forall s, Py.lower (Py.lower s) = Py.lower s).
  { induction s as [| c s IH]; cbn; [reflexivity |].
    rewrite IH. f_equal.
    destruct c as [[] [] [] [] [] [] [] []]; reflexivity. }
  now rewrite Hidem.
Qed.

End PositionFacts.

(** ** Style validation *)

Module StyleFacts.
Import Schemas.

Lemma new_CaptionStyle_inv ft fs fc sc sw pad pos :
  (~ out_of_bounds fs sw pad /\
   new_CaptionStyle ft fs fc sc sw pad pos =
     Ok {| font_type := ft; font_size := fs; font_color := fc;
           stroke_color := sc; stroke_width := sw; padding := pad;
           position := pos |}) \/
  (out_of_bounds fs sw pad /\
   new_CaptionStyle ft fs fc sc sw pad pos = Raise ValidationError).
Proof.
  unfold new_CaptionStyle, in_bounds, out_of_bounds; cbn.
  destruct (8 <=? fs) eqn:E1, (fs <=? 72) eqn:E2,
           (0 <=? sw) eqn:E3, (sw <=? 10) eqn:E4,
           (0 <=? pad) eqn:E5, (pad <=? 50) eqn:E6; cbn;
    first [ left; split; [lia | reflexivity] | right; split; [lia | reflexivity] ].
Qed.

(** C3, as the code has it: construction is rejected exactly when
    [font_size] leaves [8,72], [stroke_width] leaves [0,10] or [padding]
    leaves [0,50]; [position] is a free string and never causes a
    rejection; [font_size=100] and [stroke_width=15] are rejected. *)
Theorem caption_style_rejected_iff ft fs fc sc sw pad pos :
  ((exists e, new_CaptionStyle ft fs fc sc sw pad pos = Raise e)
     <-> out_of_bounds fs sw pad) /\
  ((exists st, new_CaptionStyle ft fs fc sc sw pad pos = Ok st)
     <-> (8 <= fs <= 72 /\ 0 <= sw <= 10 /\ 0 <= pad <= 50)) /\
  new_CaptionStyle ft 100 fc sc sw pad pos = Raise ValidationError /\
  new_CaptionStyle ft fs fc sc 15 pad pos = Raise ValidationError.
Proof.
  split; [| split; [| split]].
  - destruct (new_CaptionStyle_inv ft fs fc sc sw pad pos) as [[Hn E] | [Ho E]];
      rewrite E; split.
    + intros [e He]; discriminate He.
    + intros Ho; contradiction.
    + intros _; exact Ho.
    + intros _; eexists; reflexivity.
  - destruct (new_CaptionStyle_inv ft fs fc sc sw pad pos) as [[Hn E] | [Ho E]];
      rewrite E; split.
    + intros _. unfold out_of_bounds in Hn. lia.
    + intros _; eexists; reflexivity.
    + intros [st Hst]; discriminate Hst.
    + intros Hin. unfold out_of_bounds in Ho. lia.
  - destruct (new_CaptionStyle_inv ft 100 fc sc sw pad pos) as [[Hn E] | [Ho E]].
    + exfalso; apply Hn; unfold out_of_bounds; lia.
    + exact E.
  - destruct (new_CaptionStyle_inv ft fs fc sc 15 pad pos) as [[Hn E] | [Ho E]].
    + exfalso; apply Hn; unfold out_of_bounds; lia.
    + exact E.
Qed.

Lemma caption_style_rejected_iff_witness :
  (exists st, new_CaptionStyle "Arial" 24 "#FFFFFF" "#000000" 2 10 "bottom" = Ok st)
  /\ (exists e, new_CaptionStyle "Arial" 7 "#FFFFFF" "#000000" 2 10 "bottom" = Raise e).
Proof.
  split.
  - apply (caption_style_rejected_iff "Arial" 24 "#FFFFFF" "#000000" 2 10 "bottom"). lia.
  - apply (caption_style_rejected_iff "Arial" 7 "#FFFFFF" "#000000" 2 10 "bottom").
    unfold out_of_bounds. lia.
Defined.

(** C3 as stated would have a position outside top, center and bottom
    rejected; the construction accepts it. *)
Lemma caption_style_position_unchecked :
  ~ (forall ft fs fc sc sw pad pos,
       (exists e, new_CaptionStyle ft fs fc sc sw pad pos = Raise e) <->
       (out_of_bounds fs sw pad \/ ~ In pos ["top"; "center"; "bottom"])).
Proof.
  intros Hclaim.
  destruct (Hclaim "Arial" 24 "#FFFFFF" "#000000" 2 10 "middle") as [_ Hrej].
  destruct Hrej as [e He].
  - right. cbn. intros [H | [H | [H | []]]]; discriminate H.
  - vm_compute in He. discriminate He.
Qed.

End StyleFacts.

(** ** Strings and words *)

Module PyFacts.
Import Py.

Lemma append_nil_r (s : string) : (s ++ "")%string = s.
Proof. induction s as [| c s IH]; cbn; [reflexivity | now rewrite IH]. Qed.

Lemma append_assoc (s t u : string) :
  ((s ++ t) ++ u)%string = (s ++ (t ++ u))%string.
Proof. induction s as [| c s IH]; cbn; [reflexivity | now rewrite IH]. Qed.

Lemma length_append (s t : string) :
  String.length (s ++ t) = (String.length s + String.length t)%nat.
Proof. induction s as [| c s IH]; cbn; [reflexivity | now rewrite IH]. Qed.

Lemma has_space_append (s t : string) :
  has_space (s ++ t) = has_space s || has_space t.
Proof.
  induction s as [| c s IH]; cbn; [reflexivity |].
  now rewrite IH, orb_assoc.
Qed.

Lemma is_word_inv (w : string) :
  is_word w = true -> (String.length w =? 0)%nat = false /\ has_space w = false.
Proof.
  unfold is_word. intros H. apply andb_prop in H as [H1 H2].
  split; [now apply negb_true_iff in H1 | now apply negb_true_iff in H2].
Qed.

(** Reading a run of non-whitespace characters only extends the word
    being read. *)
Lemma split_from_run (w s acc : string) :
  has_space w = false ->
  split_from (w ++ s) acc = split_from s (acc ++ w).
Proof.
  revert acc. induction w as [| c w IH]; intros acc Hw; cbn.
  - now rewrite append_nil_r.
  - cbn in Hw. apply orb_false_elim in Hw as [Hc Hw].
    rewrite Hc, IH by exact Hw.
    now rewrite append_assoc.
Qed.

Lemma split_from_words (s : string) :
  forall acc, has_space acc = false -> Forall (fun w => is_word w = true) (split_from s acc).
Proof.
  induction s as [| c s IH]; intros acc Hacc; cbn.
  - destruct (String.length acc =? 0)%nat eqn:E; constructor; [| constructor].
    unfold is_word. now rewrite E, Hacc.
  - destruct (isspace c) eqn:Hc.
    + destruct (String.length acc =? 0)%nat eqn:E.
      * now apply IH.
      * constructor; [unfold is_word; now rewrite E, Hacc | now apply IH].
    + apply IH. rewrite has_space_append, Hacc. cbn. now rewrite Hc.
Qed.

(** Every item of [s.split()] is a word. *)
Lemma split_words (s : string) : Forall (fun w => is_word w = true) (split s).
Proof. now apply split_from_words. Qed.

Lemma split_single (w : string) : is_word w = true -> split w = [w].
Proof.
  intros Hw. apply is_word_inv in Hw as [Hlen Hsp].
  unfold split. rewrite <- (append_nil_r w) at 1.
  rewrite split_from_run by exact Hsp. cbn. now rewrite Hlen.
Qed.

(** Splitting undoes joining words with a blank. *)
Lemma split_join (ws : list string) :
  Forall (fun w => is_word w = true) ws -> split (join " " ws) = ws.
Proof.
  induction ws as [| w ws IH]; intros Hws; [reflexivity |].
  inversion Hws as [| w' ws' Hw Hrest]; subst.
  destruct ws as [| w2 ws].
  - now apply split_single.
  - change (join " " (w :: w2 :: ws))
      with (w ++ String " " (join " " (w2 :: ws)))%string.
    apply is_word_inv in Hw as [Hlen Hsp].
    unfold split. rewrite split_from_run by exact Hsp.
    cbn [split_from append]. change (isspace " ") with true. cbn iota.
    rewrite Hlen. f_equal. now apply IH.
Qed.

Lemma join_snoc (sep : string) (ws : list string) (w : string) :
  ws <> [] -> join sep (ws ++ [w]) = (join sep ws ++ sep ++ w)%string.
Proof.
  induction ws as [| a ws IH]; intros Hne; [contradiction |].
  destruct ws as [| b ws]; [reflexivity |].
  change (join sep ((a :: b :: ws) ++ [w]))
    with (a ++ sep ++ join sep ((b :: ws) ++ [w]))%string.
  rewrite IH by discriminate.
  change (join sep (a :: b :: ws)) with (a ++ sep ++ join sep (b :: ws))%string.
  now rewrite !append_assoc.
Qed.

(** A joined line is empty exactly when it holds no word. *)
Lemma join_length_zero (ws : list string) :
  Forall (fun w => is_word w = true) ws ->
  (String.length (join " " ws) =? 0)%nat = match ws with [] => true | _ => false end.
Proof.
  intros Hws. destruct ws as [| w ws]; [reflexivity |].
  inversion Hws as [| w' ws' Hw _]; subst.
  apply is_word_inv in Hw as [Hlen _].
  apply Nat.eqb_neq in Hlen. apply Nat.eqb_neq.
  destruct ws as [| w2 ws]; [exact Hlen |].
  change (join " " (w :: w2 :: ws)) with (w ++ " " ++ join " " (w2 :: ws))%string.
  rewrite length_append. lia.
Qed.

End PyFacts.

(** ** Text wrapping *)

Module WrapFacts.
Import Py PyFacts CaptionRenderer Reference.

Local Abbreviation words_ok := (Forall (fun w => is_word w = true)).

Lemma nonempty_spec {A : Type} (l : list A) :
  nonempty l = match l with [] => false | _ => true end.
Proof. now destruct l. Qed.

Lemma flat_map_snoc {A B : Type} (f : A -> list B) (l : list A) (a : A) :
  flat_map f (l ++ [a]) = flat_map f l ++ f a.
Proof. rewrite flat_map_app. cbn. now rewrite app_nil_r. Qed.

Section Loop.

Variable font : ImageFont.
Variable max_width : Z.

(** The loop neither loses nor reorders a word: the words of the closed
    lines, then the words of the open line, then the words still to be
    read, always spell the same sequence. *)
Lemma wrap_loop_keeps_words (words : list string) :
  forall lines current lines' current',
    words_ok words -> words_ok current ->
    wrap_loop font max_width words lines current = Ok (lines', current') ->
    words_ok current' /\
    flat_map split lines' ++ current' = flat_map split lines ++ current ++ words.
Proof.
  induction words as [| word rest IH]; intros lines current lines' current' Hw Hc Hrun.
  - cbn in Hrun. injection Hrun as <- <-. now rewrite app_nil_r.
  - inversion Hw as [| w' r' Hword Hrest]; subst.
    cbn [wrap_loop] in Hrun.
    destruct (text_width font (join " " (current ++ [word]))) as [w | e];
      cbn [bind] in Hrun; [| discriminate Hrun].
    destruct (w <=? max_width).
    + apply IH in Hrun as [Hc' Heq]; [| exact Hrest |].
      * split; [exact Hc' |]. rewrite Heq. now rewrite <- app_assoc.
      * apply Forall_app. split; [exact Hc | now constructor].
    + destruct current as [| c0 current]; cbn [nonempty] in Hrun.
      * apply IH in Hrun as [Hc' Heq]; [| exact Hrest | constructor].
        split; [exact Hc' |]. rewrite Heq, flat_map_snoc.
        rewrite (split_single word Hword). now rewrite <- app_assoc.
      * apply IH in Hrun as [Hc' Heq]; [| exact Hrest | now constructor].
        split; [exact Hc' |]. rewrite Heq, flat_map_snoc.
        rewrite (split_join (c0 :: current) Hc). now rewrite <- !app_assoc.
Qed.

Section Measured.

(** The font measures every text: [width] is what [getbbox] gives. *)
Variable width : string -> Z.
Hypothesis font_measures : forall s, text_width font s = Ok (width s).

(** With a font that measures every text the loop is the greedy fill. *)
Lemma wrap_loop_greedy (words : list string) :
  forall lines current,
    words_ok words -> words_ok current ->
    exists lines' current',
      wrap_loop font max_width words lines current = Ok (lines', current') /\
      (if nonempty current' then lines' ++ [join " " current'] else lines')
      = lines ++ greedy_fill width max_width words (join " " current).
Proof.
  induction words as [| word rest IH]; intros lines current Hw Hc.
  - exists lines, current. split; [reflexivity |].
    cbn [greedy_fill]. rewrite (join_length_zero current Hc), nonempty_spec.
    destruct current; [now rewrite app_nil_r | reflexivity].
  - inversion Hw as [| w' r' Hword Hrest]; subst.
    cbn [wrap_loop greedy_fill]. rewrite font_measures. cbn [bind].
    rewrite (join_length_zero current Hc).
    destruct current as [| c0 current].
    + change (join " " ([] ++ [word])) with word.
      destruct (width word <=? max_width).
      * apply (IH lines [word]); [exact Hrest | now constructor].
      * cbn [nonempty].
        destruct (IH (lines ++ [word]) [] Hrest ltac:(constructor))
          as (l' & c' & Hrun & Heq).
        exists l', c'. split; [exact Hrun |].
        rewrite Heq. now rewrite <- app_assoc.
    + rewrite join_snoc by discriminate.
      destruct (width (join " " (c0 :: current) ++ " " ++ word)%string <=? max_width).
      * destruct (IH lines ((c0 :: current) ++ [word]) Hrest) as (l' & c' & Hrun & Heq).
        { apply Forall_app. split; [exact Hc | now constructor]. }
        exists l', c'. split; [exact Hrun |].
        rewrite Heq. rewrite join_snoc by discriminate. reflexivity.
      * cbn [nonempty].
        destruct (IH (lines ++ [join " " (c0 :: current)]) [word] Hrest)
          as (l' & c' & Hrun & Heq).
        { now constructor. }
        exists l', c'. split; [exact Hrun |].
        rewrite Heq. now rewrite <- app_assoc.
Qed.

Variable all_words : list string.

Local Abbreviation line_fits := (fits width max_width all_words).

Lemma word_fits (w : string) : In w all_words -> line_fits w.
Proof.
  intros Hin. unfold fits.
  destruct (Z.le_gt_cases (width w) max_width); [left | right]; auto with zarith.
Qed.

(** Closed lines fit, and so does the open line once it holds a word. *)
Lemma wrap_loop_fits (words : list string) :
  forall lines current lines' current',
    incl words all_words ->
    Forall line_fits lines ->
    (current = [] \/ line_fits (join " " current)) ->
    wrap_loop font max_width words lines current = Ok (lines', current') ->
    Forall line_fits lines' /\
    (current' = [] \/ line_fits (join " " current')).
Proof.
  induction words as [| word rest IH];
    intros lines current lines' current' Hincl Hlines Hcur Hrun.
  - cbn in Hrun. injection Hrun as <- <-. now split.
  - assert (Hin : In word all_words) by (apply Hincl; now left).
    assert (Hincl' : incl rest all_words).
    { intros x Hx. apply Hincl. now right. }
    cbn [wrap_loop] in Hrun. rewrite font_measures in Hrun. cbn [bind] in Hrun.
    destruct (Z.leb_spec (width (join " " (current ++ [word]))) max_width) as [Hle | Hgt].
    + apply IH in Hrun; [exact Hrun | exact Hincl' | exact Hlines |].
      right. now left.
    + destruct current as [| c0 current]; cbn [nonempty] in Hrun.
      * apply IH in Hrun; [exact Hrun | exact Hincl' | | now left].
        apply Forall_app. split; [exact Hlines |].
        constructor; [| constructor]. right. split; [exact Hin | exact Hgt].
      * apply IH in Hrun; [exact Hrun | exact Hincl' | |].
        -- apply Forall_app. split; [exact Hlines |].
           constructor; [| constructor].
           destruct Hcur as [Hnil | Hfit]; [discriminate Hnil | exact Hfit].
        -- right. now apply word_fits.
Qed.

End Measured.
End Loop.

Section Monotone.

Variable width : string -> Z.
Variable max_width : Z.
Hypothesis width_monotone : forall a b, width a <= width (a ++ " " ++ b)%string.

Lemma nonempty_line (current word : string) :
  is_word word = true ->
  (String.length (current ++ " " ++ word) =? 0)%nat = false.
Proof.
  intros Hw. apply Nat.eqb_neq. rewrite !length_append. cbn. lia.
Qed.

Lemma greedy_fill_plain_open (words : list string) :
  forall current,
    words_ok words -> (String.length current =? 0)%nat = false ->
    greedy_fill width max_width words current
    = greedy_plain width max_width words current.
Proof.
  induction words as [| word rest IH]; intros current Hw Hcur;
    cbn [greedy_fill greedy_plain]; rewrite Hcur.
  - reflexivity.
  - inversion Hw as [| w' r' Hword Hrest]; subst.
    destruct (width (current ++ " " ++ word)%string <=? max_width).
    + apply IH; [exact Hrest | now apply nonempty_line].
    + f_equal. apply IH; [exact Hrest | now apply is_word_inv in Hword as [H _]].
Qed.

Lemma greedy_fill_plain_wide (rest : list string) :
  forall w,
    words_ok rest -> is_word w = true -> max_width < width w ->
    w :: greedy_fill width max_width rest EmptyString
    = greedy_plain width max_width rest w.
Proof.
  induction rest as [| w2 r IH]; intros w Hrest Hw Hwide;
    destruct (is_word_inv w Hw) as [Hlen _];
    cbn [greedy_fill greedy_plain]; rewrite Hlen.
  - reflexivity.
  - inversion Hrest as [| w' r' Hw2 Hr]; subst.
    destruct (Z.leb_spec (width (w ++ " " ++ w2)%string) max_width) as [Hfit | _].
    + pose proof (width_monotone w w2). lia.
    + f_equal. destruct (Z.leb_spec (width w2) max_width) as [Hle | Hgt].
      * apply greedy_fill_plain_open; [exact Hr | now apply is_word_inv in Hw2 as [H _]].
      * now apply IH.
Qed.

(** For a measure that never shrinks when a word is appended, the rule
    with and the rule without a case for the too-wide word agree. *)
Lemma greedy_fill_plain (words : list string) :
  words_ok words ->
  greedy_fill width max_width words EmptyString
  = greedy_plain width max_width words EmptyString.
Proof.
  intros Hw. destruct words as [| word rest]; [reflexivity |].
  inversion Hw as [| w' r' Hword Hrest]; subst.
  cbn [greedy_fill greedy_plain String.length Nat.eqb].
  destruct (Z.leb_spec (width word) max_width) as [Hle | Hgt].
  - apply greedy_fill_plain_open; [exact Hrest | now apply is_word_inv in Hword as [H _]].
  - now apply greedy_fill_plain_wide.
Qed.

End Monotone.

(** C5: with a font that measures every text, [_wrap_text] returns what
    the greedy fill of the specification returns: words are read in
    order, a word joins the current line while the line with it still
    measures at most [max_width], otherwise the line is closed and the
    word starts the next one, and a single word wider than [max_width]
    is a line of its own, unmodified. *)
Theorem wrap_text_is_greedy_fill (text : string) (font : ImageFont)
    (width : string -> Z) (max_width : Z) :
  (forall s, text_width font s = Ok (width s)) ->
  _wrap_text text font max_width = greedy_wrap width max_width text.
Proof.
  intros Hm. unfold _wrap_text, wrap_text_try, greedy_wrap.
  destruct (wrap_loop_greedy font max_width width Hm (split text) [] [])
    as (lines' & current' & Hrun & Heq).
  - apply split_words.
  - constructor.
  - rewrite Hrun. cbn [bind]. exact Heq.
Qed.

Lemma greedy_wrap_example :
  greedy_wrap Samples.pitch10 100 "This is a very long text"
  = ["This is a"; "very long"; "text"].
Proof. reflexivity. Qed.

Lemma wrap_text_is_greedy_fill_witness :
  _wrap_text "This is a very long text" Samples.mono_font 100
  = greedy_wrap Samples.pitch10 100 "This is a very long text".
Proof.
  apply (wrap_text_is_greedy_fill "This is a very long text" Samples.mono_font
           Samples.pitch10 100).
  intros s. unfold text_width. cbn. f_equal. lia.
Defined.

(** C6: with a font that measures every text, each line returned by
    [_wrap_text] measures at most [max_width], unless it is a single
    word of the text whose own width exceeds [max_width].  No assumption
    on the measure is needed, so this holds in particular for a measure
    that is monotone under appending words. *)
Theorem wrap_text_lines_fit (text : string) (font : ImageFont)
    (width : string -> Z) (max_width : Z) (line : string) :
  (forall s, text_width font s = Ok (width s)) ->
  In line (_wrap_text text font max_width) ->
  width line <= max_width \/
  (In line (split text) /\ split line = [line] /\ max_width < width line).
Proof.
  intros Hm Hin.
  assert (Hfit : fits width max_width (split text) line).
  { unfold _wrap_text, wrap_text_try in Hin.
    destruct (wrap_loop font max_width (split text) [] []) as [[lines current] | e] eqn:Hrun;
      cbn [bind] in Hin.
    - apply (wrap_loop_fits font max_width width Hm (split text)) in Hrun
        as [Hlines Hcur];
        [| apply incl_refl | constructor | now left].
      rewrite Forall_forall in Hlines.
      destruct current as [| c0 current]; cbn [nonempty] in Hin.
      + now apply Hlines.
      + apply in_app_or in Hin as [Hin | [<- | []]]; [now apply Hlines |].
        destruct Hcur as [Hnil | Hfit]; [discriminate Hnil | exact Hfit].
    - destruct (wrap_loop_greedy font max_width width Hm (split text) [] []
                  (split_words text) ltac:(constructor)) as (l' & c' & Hrun' & _).
      rewrite Hrun in Hrun'. discriminate Hrun'. }
  destruct Hfit as [Hle | [Hword Hgt]]; [now left | right].
  split; [exact Hword |]. split; [| exact Hgt].
  apply split_single.
  pose proof (split_words text) as Hall. rewrite Forall_forall in Hall.
  now apply Hall.
Qed.

Lemma wrap_text_lines_fit_witness :
  Samples.pitch10 "supercalifragilistic" <= 100 \/
  (In "supercalifragilistic" (split "a supercalifragilistic word here") /\
   split "supercalifragilistic" = ["supercalifragilistic"] /\
   100 < Samples.pitch10 "supercalifragilistic").
Proof.
  apply (wrap_text_lines_fit "a supercalifragilistic word here" Samples.mono_font
           Samples.pitch10 100 "supercalifragilistic").
  - intros s. unfold text_width. cbn. f_equal. lia.
  - vm_compute. right. left. reflexivity.
Defined.

(** The words of the returned lines are the words of the text. *)
Lemma wrap_text_words (text : string) (font : ImageFont) (max_width : Z) :
  flat_map split (_wrap_text text font max_width) = split text.
Proof.
  unfold _wrap_text, wrap_text_try.
  destruct (wrap_loop font max_width (split text) [] []) as [[lines current] | e] eqn:Hrun;
    cbn [bind].
  - apply wrap_loop_keeps_words in Hrun as [Hc Heq];
      [| apply split_words | constructor].
    cbn [flat_map app] in Heq.
    destruct current as [| c0 current]; cbn [nonempty].
    + now rewrite app_nil_r in Heq.
    + rewrite flat_map_snoc, (split_join _ Hc). exact Heq.
  - cbn. now rewrite app_nil_r.
Qed.

(** C9: wrapping preserves the word sequence: the words of the returned
    lines, read line after line, are the words of the text, for every
    text, font and width limit, also when the font fails to measure; no
    word is dropped, duplicated or reordered. *)
Theorem wrap_text_preserves_words (text : string) (font : ImageFont) (max_width : Z) :
  List.concat (map split (_wrap_text text font max_width)) = split text.
Proof. rewrite <- flat_map_concat_map. apply wrap_text_words. Qed.

(** When the font cannot measure, the text comes back as one line. *)
Lemma wrap_text_broken_font (text : string) (max_width : Z) :
  split text <> [] -> _wrap_text text Samples.broken_font max_width = [text].
Proof.
  intros Hne. unfold _wrap_text, wrap_text_try.
  destruct (split text) as [| w ws]; [contradiction | reflexivity].
Qed.

(** A text that fits is returned as one line, its words joined by single
    blanks. *)
Lemma wrap_text_short :
  _wrap_text "Hello world" Samples.mono_font 1000 = ["Hello world"] /\
  _wrap_text "Hello   world " Samples.mono_font 1000 = ["Hello world"].
Proof. split; reflexivity. Qed.

End WrapFacts.

(** ** Rasterisation *)

Module RenderFacts.
Import Py PyFacts Schemas CaptionRenderer Reference.

Lemma rgb_eqb_spec (a b : rgb) : reflect (a = b) (rgb_eqb a b).
Proof.
  destruct a as [[r1 g1] b1], b as [[r2 g2] b2]. unfold rgb_eqb.
  destruct (Z.eqb_spec r1 r2), (Z.eqb_spec g1 g2), (Z.eqb_spec b1 b2);
    cbn; constructor; congruence.
Qed.

Lemma in_range_from (z lo : Z) (n : nat) :
  In z (range_from lo n) <-> lo <= z < lo + Z.of_nat n.
Proof.
  revert lo. induction n as [| n IH]; intros lo; cbn [range_from In].
  - lia.
  - rewrite IH. lia.
Qed.

Lemma in_range (z lo hi : Z) : In z (range lo hi) <-> lo <= z < hi.
Proof. unfold range. rewrite in_range_from. lia. Qed.

(** A loop that appends [f a] for the items [a] that pass [p]. *)
Lemma fold_left_draw {A B : Type} (p : A -> bool) (f : A -> B) (l : list A) :
  forall acc,
    fold_left (fun acc a => if p a then acc ++ [f a] else acc) l acc
    = acc ++ map f (filter p l).
Proof.
  induction l as [| a l IH]; intros acc; cbn.
  - now rewrite app_nil_r.
  - rewrite IH. destruct (p a); cbn; [now rewrite <- app_assoc | reflexivity].
Qed.

Lemma fold_left_pointwise {A B : Type} (f g : A -> B -> A) (l : list B) :
  (forall a b, f a b = g a b) ->
  forall acc, fold_left f l acc = fold_left g l acc.
Proof.
  intros Hfg. induction l as [| b l IH]; intros acc; cbn; [reflexivity |].
  now rewrite Hfg, IH.
Qed.

Lemma fold_left_append {A B : Type} (g : A -> list B) (l : list A) :
  forall acc, fold_left (fun acc a => acc ++ g a) l acc = acc ++ flat_map g l.
Proof.
  induction l as [| a l IH]; intros acc; cbn.
  - now rewrite app_nil_r.
  - rewrite IH. now rewrite <- app_assoc.
Qed.

Lemma stroke_pass_calls (calls : list text_call) (x y : Z) (s : string)
    (sw : Z) (col : rgb) :
  stroke_pass calls x y s sw col = calls ++ stroke_calls x y s sw col.
Proof.
  unfold stroke_pass, stroke_calls, draw_text.
  rewrite <- fold_left_append.
  apply fold_left_pointwise. intros acc dx.
  apply (fold_left_draw (fun dy => dx * dx + dy * dy <=? sw * sw)
           (fun dy => {| xy := (x + dx, y + dy); call_text := s; fill := col |})).
Qed.

Lemma in_stroke_calls (x y : Z) (s : string) (sw : Z) (col : rgb) (c : text_call) :
  In c (stroke_calls x y s sw col) <->
  exists dx dy,
    0 <= sw /\ dx * dx + dy * dy <= sw * sw /\
    c = {| xy := (x + dx, y + dy); call_text := s; fill := col |}.
Proof.
  unfold stroke_calls. rewrite in_flat_map. split.
  - intros (dx & Hdx & Hc). apply in_map_iff in Hc as (dy & <- & Hdy).
    apply filter_In in Hdy as [Hdy Hle]. apply Z.leb_le in Hle.
    apply in_range in Hdx. exists dx, dy. repeat split; [lia | exact Hle].
  - intros (dx & dy & Hsw & Hle & ->).
    exists dx. split.
    + apply in_range. nia.
    + apply in_map_iff. exists dy. split; [reflexivity |].
      apply filter_In. split; [apply in_range; nia | now apply Z.leb_le].
Qed.

(** What the outline branch of both renderers leaves on the canvas. *)
Lemma outline_branch (calls : list text_call) (x y : Z) (s : string)
    (sw : Z) (col : rgb) :
  exists outline,
    (if 0 <? sw then stroke_pass calls x y s sw col else calls) = calls ++ outline /\
    disc_outline sw x y s col outline.
Proof.
  destruct (Z.ltb_spec 0 sw) as [Hpos | Hle].
  - exists (stroke_calls x y s sw col). split; [apply stroke_pass_calls |].
    intros c. rewrite in_stroke_calls. split.
    + intros (dx & dy & _ & Hd & ->). exists dx, dy. auto.
    + intros (dx & dy & _ & Hd & ->). exists dx, dy. repeat split; [lia | exact Hd].
  - exists []. split; [now rewrite app_nil_r |].
    intros c. split; [intros [] | intros (dx & dy & Hpos & _); lia].
Qed.

Lemma disc_outline_zero (sw x y : Z) (s : string) (col : rgb) (outline : list text_call) :
  sw <= 0 -> disc_outline sw x y s col outline -> outline = [].
Proof.
  intros Hsw Hd. destruct outline as [| c outline]; [reflexivity |].
  destruct (proj1 (Hd c) (or_introl eq_refl)) as (dx & dy & Hpos & _). lia.
Qed.

Lemma disc_outline_centre (sw x y : Z) (s : string) (col : rgb) (outline : list text_call) :
  0 < sw -> disc_outline sw x y s col outline ->
  In {| xy := (x, y); call_text := s; fill := col |} outline.
Proof.
  intros Hsw Hd. apply Hd. exists 0, 0. repeat split; [exact Hsw | nia |].
  now rewrite !Z.add_0_r.
Qed.

Section Renderer.

Variable _load_font : string -> Z -> ImageFont.

(** The line loop of [create_caption_image] adds one block per line. *)
Lemma draw_lines_blocks (font : ImageFont) (style : CaptionStyle) (video_width : Z)
    (font_color stroke_color : rgb) (line_height : Z) (lines : list string) :
  forall calls y_offset drawn,
    draw_lines font style video_width font_color stroke_color line_height
      lines calls y_offset = Ok drawn ->
    exists blocks,
      drawn = calls ++ List.concat blocks /\
      Forall2 (fun line block =>
                 outlined_block (stroke_width style) line stroke_color font_color block)
        lines blocks.
Proof.
  induction lines as [| line rest IH]; intros calls y drawn Hrun.
  - cbn in Hrun. injection Hrun as <-. exists []. split; [now rewrite app_nil_r | constructor].
  - cbn [draw_lines] in Hrun.
    destruct (text_width font line) as [tw | e]; cbn [bind] in Hrun; [| discriminate Hrun].
    cbv zeta in Hrun.
    destruct (outline_branch calls ((video_width - tw) / 2) y line
                (stroke_width style) stroke_color) as (outline & Hout & Hdisc).
    rewrite Hout in Hrun. unfold draw_text in Hrun.
    apply IH in Hrun as (blocks & -> & Hblocks).
    eexists ((outline ++ [_]) :: blocks). split.
    + cbn [List.concat]. now rewrite <- !app_assoc.
    + constructor; [| exact Hblocks].
      exists ((video_width - tw) / 2), y, outline. split; [reflexivity | exact Hdisc].
Qed.

(** The word loop of [create_word_highlighted_caption] adds one block per
    word. *)
Lemma draw_words_blocks (font : ImageFont) (style : CaptionStyle)
    (font_color stroke_color highlight_rgb : rgb) (current_word : string)
    (y_offset : Z) (words : list string) :
  forall calls x_offset drawn,
    draw_words font style font_color stroke_color highlight_rgb current_word
      y_offset words calls x_offset = Ok drawn ->
    exists blocks,
      drawn = calls ++ List.concat blocks /\
      Forall2 (fun word block =>
                 outlined_block (stroke_width style) word
                   (stroke_col font_color stroke_color highlight_rgb current_word word)
                   (word_color font_color highlight_rgb current_word word) block)
        words blocks.
Proof.
  induction words as [| word rest IH]; intros calls x drawn Hrun.
  - cbn in Hrun. injection Hrun as <-. exists []. split; [now rewrite app_nil_r | constructor].
  - cbn [draw_words] in Hrun. cbv zeta in Hrun.
    fold (word_color font_color highlight_rgb current_word word) in Hrun.
    fold (stroke_col font_color stroke_color highlight_rgb current_word word) in Hrun.
    destruct (outline_branch calls x y_offset word (stroke_width style)
                (stroke_col font_color stroke_color highlight_rgb current_word word))
      as (outline & Hout & Hdisc).
    rewrite Hout in Hrun. unfold draw_text in Hrun.
    destruct (text_width font word) as [tw | e]; cbn [bind] in Hrun; [| discriminate Hrun].
    apply IH in Hrun as (blocks & -> & Hblocks).
    eexists ((outline ++ [_]) :: blocks). split.
    + cbn [List.concat]. now rewrite <- !app_assoc.
    + constructor; [| exact Hblocks].
      exists x, y_offset, outline. split; [reflexivity | exact Hdisc].
Qed.

Lemma draw_highlighted_lines_blocks (font : ImageFont) (style : CaptionStyle)
    (font_color stroke_color highlight_rgb : rgb) (current_word : string)
    (line_height : Z) (lines : list string) :
  forall calls y_offset drawn,
    draw_highlighted_lines font style font_color stroke_color highlight_rgb
      current_word line_height lines calls y_offset = Ok drawn ->
    exists blocks,
      drawn = calls ++ List.concat blocks /\
      Forall2 (fun word block =>
                 outlined_block (stroke_width style) word
                   (stroke_col font_color stroke_color highlight_rgb current_word word)
                   (word_color font_color highlight_rgb current_word word) block)
        (flat_map split lines) blocks.
Proof.
  induction lines as [| line rest IH]; intros calls y drawn Hrun.
  - cbn in Hrun. injection Hrun as <-. exists []. split; [now rewrite app_nil_r | constructor].
  - cbn [draw_highlighted_lines] in Hrun. cbv zeta in Hrun.
    destruct (draw_words font style font_color stroke_color highlight_rgb current_word
                y (split line) calls (padding style)) as [mid | e] eqn:Hline;
      cbn [bind] in Hrun; [| discriminate Hrun].
    apply draw_words_blocks in Hline as (blocks1 & -> & Hb1).
    apply IH in Hrun as (blocks2 & -> & Hb2).
    exists (blocks1 ++ blocks2). split.
    + now rewrite concat_app, app_assoc.
    + cbn [flat_map]. now apply Forall2_app.
Qed.

(** The calls of a word-highlighted caption: one block per word of the
    text, in the order of the text. *)
Lemma highlighted_caption_blocks (text current_word : string)
    (video_width video_height : Z) (style : CaptionStyle) (highlight_color : string)
    (img : Image) :
  create_word_highlighted_caption _load_font text current_word video_width
    video_height style highlight_color = Ok img ->
  exists blocks,
    calls img = List.concat blocks /\
    Forall2 (fun word block =>
               outlined_block (stroke_width style) word
                 (stroke_col (_hex_to_rgb (font_color style))
                    (_hex_to_rgb (stroke_color style))
                    (_hex_to_rgb highlight_color) current_word word)
                 (word_color (_hex_to_rgb (font_color style))
                    (_hex_to_rgb highlight_color) current_word word) block)
      (split text) blocks.
Proof.
  unfold create_word_highlighted_caption. intros Hrun.
  destruct (int_of_float _) as [max_width | e]; cbn [bind] in Hrun; [| discriminate Hrun].
  cbv zeta in Hrun.
  destruct (Image_new _) as [blank | e] eqn:Hnew; cbn [bind] in Hrun; [| discriminate Hrun].
  assert (Hblank : calls blank = []).
  { unfold Image_new in Hnew. destruct (_ || _); [discriminate Hnew |].
    now injection Hnew as <-. }
  destruct (draw_highlighted_lines _ _ _ _ _ _ _ _ _ _) as [drawn | e] eqn:Hdraw;
    cbn [bind] in Hrun; [| discriminate Hrun].
  injection Hrun as <-. cbn [calls].
  apply draw_highlighted_lines_blocks in Hdraw as (blocks & -> & Hblocks).
  rewrite Hblank, WrapFacts.wrap_text_words in *.
  exists blocks. split; [reflexivity | exact Hblocks].
Qed.

(** The calls of a caption image: one block per wrapped line. *)
Lemma caption_image_blocks (text : string) (video_width video_height : Z)
    (style : CaptionStyle) (max_width_ratio : float) (img : Image) :
  create_caption_image _load_font text video_width video_height style
    max_width_ratio = Ok img ->
  exists max_width blocks,
    int_of_float (PrimFloat.mul (float_of_int video_width) max_width_ratio)
      = Ok max_width /\
    calls img = List.concat blocks /\
    Forall2 (fun line block =>
               outlined_block (stroke_width style) line
                 (_hex_to_rgb (stroke_color style))
                 (_hex_to_rgb (font_color style)) block)
      (_wrap_text text (_load_font (font_type style) (font_size style)) max_width)
      blocks.
Proof.
  unfold create_caption_image. intros Hrun.
  destruct (int_of_float _) as [max_width | e]; cbn [bind] in Hrun; [| discriminate Hrun].
  cbv zeta in Hrun.
  destruct (Image_new _) as [blank | e] eqn:Hnew; cbn [bind] in Hrun; [| discriminate Hrun].
  assert (Hblank : calls blank = []).
  { unfold Image_new in Hnew. destruct (_ || _); [discriminate Hnew |].
    now injection Hnew as <-. }
  destruct (draw_lines _ _ _ _ _ _ _ _ _) as [drawn | e] eqn:Hdraw;
    cbn [bind] in Hrun; [| discriminate Hrun].
  injection Hrun as <-. cbn [calls].
  apply draw_lines_blocks in Hdraw as (blocks & -> & Hblocks).
  rewrite Hblank. exists max_width, blocks. auto.
Qed.

(** C8: in [create_caption_image] every wrapped line is drawn as one
    block of calls: first, when [stroke_width > 0], a copy of the line in
    the stroke colour at every integer offset [(dx, dy)] with
    [dx*dx + dy*dy <= stroke_width*stroke_width] (and at no other place), then, last and
    so on top, the line itself at offset [(0, 0)] in the fill colour.
    With [stroke_width = 0] the block is the fill draw alone. *)
Theorem caption_image_outline_then_fill (text : string)
    (video_width video_height : Z) (style : CaptionStyle)
    (max_width_ratio : float) (img : Image) :
  create_caption_image _load_font text video_width video_height style
    max_width_ratio = Ok img ->
  let sw := stroke_width style in
  let fill_color := _hex_to_rgb (font_color style) in
  let outline_color := _hex_to_rgb (stroke_color style) in
  exists max_width blocks,
    int_of_float (PrimFloat.mul (float_of_int video_width) max_width_ratio)
      = Ok max_width /\
    calls img = List.concat blocks /\
    Forall2
      (fun line block =>
         exists x y outline,
           block = outline ++ [{| xy := (x, y); call_text := line; fill := fill_color |}] /\
           (forall c,
              In c outline <->
              exists dx dy,
                0 < sw /\ dx * dx + dy * dy <= sw * sw /\
                c = {| xy := (x + dx, y + dy); call_text := line;
                       fill := outline_color |}) /\
           (sw = 0 -> outline = []))
      (_wrap_text text (_load_font (font_type style) (font_size style)) max_width)
      blocks.
Proof.
  intros Hrun sw fill_color outline_color.
  apply caption_image_blocks in Hrun as (max_width & blocks & Hmw & Hcalls & Hblocks).
  exists max_width, blocks. repeat split; [exact Hmw | exact Hcalls |].
  eapply Forall2_impl; [| exact Hblocks].
  intros line block (x & y & outline & Hblock & Hdisc).
  exists x, y, outline. repeat split.
  - exact Hblock.
  - apply Hdisc.
  - apply Hdisc.
  - intros Hzero. apply (disc_outline_zero sw x y line outline_color); [lia | exact Hdisc].
Qed.

(** C1, as the code has it: in word-highlight rendering every word of
    the text is drawn as a disc outline and then the word on top.  The
    outline of a highlighted word is in the base fill colour
    ([font_color]) when the highlight colour differs from it, and in the
    configured stroke colour when the two colours are the same; the
    outline of a word that is not highlighted is always in the configured
    stroke colour. *)
Theorem highlighted_word_outline_colour (text current_word : string)
    (video_width video_height : Z) (style : CaptionStyle) (highlight_color : string)
    (img : Image) :
  create_word_highlighted_caption _load_font text current_word video_width
    video_height style highlight_color = Ok img ->
  let base := _hex_to_rgb (font_color style) in
  let stroke := _hex_to_rgb (stroke_color style) in
  let highlight := _hex_to_rgb highlight_color in
  exists blocks,
    calls img = List.concat blocks /\
    Forall2
      (fun word block =>
         exists x y outline top col,
           block = outline ++ [top] /\
           xy top = (x, y) /\ call_text top = word /\
           disc_outline (stroke_width style) x y word col outline /\
           (lower word = lower current_word -> highlight <> base -> col = base) /\
           (lower word = lower current_word -> highlight = base -> col = stroke) /\
           (lower word <> lower current_word -> col = stroke))
      (split text) blocks.
Proof.
  intros Hrun base stroke highlight.
  apply highlighted_caption_blocks in Hrun as (blocks & Hcalls & Hblocks).
  exists blocks. split; [exact Hcalls |].
  eapply Forall2_impl; [| exact Hblocks].
  intros word block (x & y & outline & Hblock & Hdisc).
  fold base stroke highlight in Hdisc.
  exists x, y, outline. eexists. exists (stroke_col base stroke highlight current_word word).
  split; [exact Hblock |].
  split; [reflexivity |]. split; [reflexivity |]. split; [exact Hdisc |].
  unfold stroke_col, word_color.
  destruct (String.eqb_spec (lower word) (lower current_word)) as [Heq | Hneq].
  - destruct (rgb_eqb_spec highlight base) as [Hsame | Hdiff];
      repeat split; intros; congruence.
  - destruct (rgb_eqb_spec base base) as [_ | Hdiff]; [| congruence].
    repeat split; intros; congruence.
Qed.

(** C10: highlighting is decided word by word, by equality with
    [current_word] after lowering the case of both: every word of the
    text, on whatever wrapped line it falls, gets its own block of calls
    that ends with the word drawn in the highlight colour if it equals
    [current_word] up to case, and in the fill colour otherwise. *)
Theorem highlight_every_occurrence (text current_word : string)
    (video_width video_height : Z) (style : CaptionStyle) (highlight_color : string)
    (img : Image) :
  create_word_highlighted_caption _load_font text current_word video_width
    video_height style highlight_color = Ok img ->
  exists blocks,
    calls img = List.concat blocks /\
    Forall2
      (fun word block =>
         exists beneath top,
           block = beneath ++ [top] /\
           call_text top = word /\
           Forall (fun c => call_text c = word) beneath /\
           (lower word = lower current_word ->
            fill top = _hex_to_rgb highlight_color) /\
           (lower word <> lower current_word ->
            fill top = _hex_to_rgb (font_color style)))
      (split text) blocks.
Proof.
  intros Hrun.
  apply highlighted_caption_blocks in Hrun as (blocks & Hcalls & Hblocks).
  exists blocks. split; [exact Hcalls |].
  eapply Forall2_impl; [| exact Hblocks].
  intros word block (x & y & outline & Hblock & Hdisc).
  exists outline. eexists. split; [exact Hblock |]. split; [reflexivity |]. split.
  - apply Forall_forall. intros c Hc.
    apply Hdisc in Hc as (dx & dy & _ & _ & ->). reflexivity.
  - cbn [fill]. unfold word_color.
    destruct (String.eqb_spec (lower word) (lower current_word));
      split; intros; congruence.
Qed.

(** With a font that measures every text, and a canvas of non-negative
    size, both renderers return an image; its height is one line height
    ([font_size + 4]) per wrapped line plus the padding above and below. *)
Lemma draw_lines_returns (font : ImageFont) (style : CaptionStyle) (video_width : Z)
    (font_color stroke_color : rgb) (line_height : Z) (lines : list string) :
  (forall s, exists w, text_width font s = Ok w) ->
  forall calls y_offset,
    exists drawn,
      draw_lines font style video_width font_color stroke_color line_height
        lines calls y_offset = Ok drawn.
Proof.
  intros Hfont. induction lines as [| line rest IH]; intros calls y; cbn [draw_lines].
  - eauto.
  - destruct (Hfont line) as [w ->]. cbn [bind]. apply IH.
Qed.

Lemma draw_words_returns (font : ImageFont) (style : CaptionStyle)
    (font_color stroke_color highlight_rgb : rgb) (current_word : string)
    (y_offset : Z) (words : list string) :
  (forall s, exists w, text_width font s = Ok w) ->
  forall calls x_offset,
    exists drawn,
      draw_words font style font_color stroke_color highlight_rgb current_word
        y_offset words calls x_offset = Ok drawn.
Proof.
  intros Hfont. induction words as [| word rest IH]; intros calls x; cbn [draw_words].
  - eauto.
  - destruct (Hfont word) as [w ->]. cbn [bind]. apply IH.
Qed.

Lemma draw_highlighted_lines_returns (font : ImageFont) (style : CaptionStyle)
    (font_color stroke_color highlight_rgb : rgb) (current_word : string)
    (line_height : Z) (lines : list string) :
  (forall s, exists w, text_width font s = Ok w) ->
  forall calls y_offset,
    exists drawn,
      draw_highlighted_lines font style font_color stroke_color highlight_rgb
        current_word line_height lines calls y_offset = Ok drawn.
Proof.
  intros Hfont. induction lines as [| line rest IH]; intros calls y;
    cbn [draw_highlighted_lines].
  - eauto.
  - destruct (draw_words_returns font style font_color stroke_color highlight_rgb
                current_word y (split line) Hfont calls (padding style)) as [mid ->].
    cbn [bind]. apply IH.
Qed.

Lemma Image_new_returns (w h : Z) :
  0 <= w -> 0 <= h -> Image_new (w, h) = Ok {| size := (w, h); calls := [] |}.
Proof.
  intros Hw Hh. unfold Image_new. cbn [fst snd].
  destruct (Z.ltb_spec w 0); [lia |]. destruct (Z.ltb_spec h 0); [lia |]. reflexivity.
Qed.

Lemma create_caption_image_returns (text : string) (video_width video_height : Z)
    (style : CaptionStyle) (max_width_ratio : float) (max_width : Z) :
  let font := _load_font (font_type style) (font_size style) in
  (forall s, exists w, text_width font s = Ok w) ->
  int_of_float (PrimFloat.mul (float_of_int video_width) max_width_ratio)
    = Ok max_width ->
  0 <= video_width -> 0 <= font_size style + 4 -> 0 <= padding style ->
  exists img,
    create_caption_image _load_font text video_width video_height style
      max_width_ratio = Ok img /\
    size img =
      (video_width,
       Z.of_nat (List.length (_wrap_text text font max_width)) * (font_size style + 4)
       + padding style * 2).
Proof.
  intros font Hfont Hmw Hvw Hlh Hpad.
  unfold create_caption_image. rewrite Hmw. cbn [bind]. cbv zeta. fold font.
  rewrite Image_new_returns by nia. cbn [bind calls size].
  destruct (draw_lines_returns font style video_width
              (_hex_to_rgb (font_color style)) (_hex_to_rgb (stroke_color style))
              (font_size style + 4) (_wrap_text text font max_width) Hfont []
              (padding style)) as [drawn ->].
  cbn [bind]. eauto.
Qed.

Lemma create_word_highlighted_caption_returns (text current_word : string)
    (video_width video_height : Z) (style : CaptionStyle) (highlight_color : string)
    (max_width : Z) :
  let font := _load_font (font_type style) (font_size style) in
  (forall s, exists w, text_width font s = Ok w) ->
  int_of_float (PrimFloat.mul (float_of_int video_width) ratio_0_8) = Ok max_width ->
  0 <= video_width -> 0 <= font_size style + 4 -> 0 <= padding style ->
  exists img,
    create_word_highlighted_caption _load_font text current_word video_width
      video_height style highlight_color = Ok img /\
    size img =
      (video_width,
       Z.of_nat (List.length (_wrap_text text font max_width)) * (font_size style + 4)
       + padding style * 2).
Proof.
  intros font Hfont Hmw Hvw Hlh Hpad.
  unfold create_word_highlighted_caption. rewrite Hmw. cbn [bind]. cbv zeta. fold font.
  rewrite Image_new_returns by nia. cbn [bind calls size].
  destruct (draw_highlighted_lines_returns font style
              (_hex_to_rgb (font_color style)) (_hex_to_rgb (stroke_color style))
              (_hex_to_rgb highlight_color) current_word
              (font_size style + 4) (_wrap_text text font max_width) Hfont []
              (padding style)) as [drawn ->].
  cbn [bind]. eauto.
Qed.

End Renderer.

Lemma caption_image_outline_then_fill_witness :
  exists img max_width blocks,
    create_caption_image Samples.load_mono "Hi you" 100 100
      default_CaptionStyle ratio_0_8 = Ok img /\
    int_of_float (PrimFloat.mul (float_of_int 100) ratio_0_8) = Ok max_width /\
    calls img = List.concat blocks /\
    List.length blocks = List.length (_wrap_text "Hi you" Samples.mono_font max_width).
Proof.
  destruct (caption_image_outline_then_fill Samples.load_mono "Hi you" 100 100
              default_CaptionStyle ratio_0_8 _ ltac:(vm_compute; reflexivity))
    as (max_width & blocks & Hmw & Hcalls & Hblocks).
  eexists. exists max_width, blocks.
  split; [vm_compute; reflexivity |].
  split; [exact Hmw |]. split; [exact Hcalls |].
  symmetry. exact (Forall2_length Hblocks).
Defined.

Lemma highlighted_word_outline_colour_witness :
  exists img blocks,
    create_word_highlighted_caption Samples.load_mono "Hi you" "HI" 100 100
      default_CaptionStyle default_highlight_color = Ok img /\
    calls img = List.concat blocks /\
    List.length blocks = List.length (split "Hi you").
Proof.
  destruct (highlighted_word_outline_colour Samples.load_mono "Hi you" "HI" 100 100
              default_CaptionStyle default_highlight_color _
              ltac:(vm_compute; reflexivity))
    as (blocks & Hcalls & Hblocks).
  eexists. exists blocks.
  split; [vm_compute; reflexivity |]. split; [exact Hcalls |].
  symmetry. exact (Forall2_length Hblocks).
Defined.

Lemma highlight_every_occurrence_witness :
  exists img blocks,
    create_word_highlighted_caption Samples.load_mono "the cat saw The dog" "THE"
      100 100 default_CaptionStyle default_highlight_color = Ok img /\
    calls img = List.concat blocks /\
    List.length blocks = List.length (split "the cat saw The dog").
Proof.
  destruct (highlight_every_occurrence Samples.load_mono "the cat saw The dog" "THE"
              100 100 default_CaptionStyle default_highlight_color _
              ltac:(vm_compute; reflexivity))
    as (blocks & Hcalls & Hblocks).
  eexists. exists blocks.
  split; [vm_compute; reflexivity |]. split; [exact Hcalls |].
  symmetry. exact (Forall2_length Hblocks).
Defined.

(** Both occurrences of a word are highlighted, on different lines and in
    different case: the top draws of "the cat saw The dog", wrapped at 80
    pixels into three lines, with current word "THE". *)
Lemma highlight_both_occurrences :
  match create_word_highlighted_caption Samples.load_mono "the cat saw The dog" "THE"
          100 100 {| font_type := "Arial"; font_size := 24; font_color := "#FFFFFF";
                     stroke_color := "#000000"; stroke_width := 0; padding := 10;
                     position := "bottom" |} default_highlight_color with
  | Ok img =>
      map (fun c => (call_text c, snd (xy c), fill c)) (calls img)
      = [ ("the", 10, (255, 255, 0)); ("cat", 10, (255, 255, 255));
          ("saw", 38, (255, 255, 255)); ("The", 38, (255, 255, 0));
          ("dog", 66, (255, 255, 255)) ]
  | Raise _ => False
  end.
Proof. vm_compute. reflexivity. Qed.

(** C1 as stated fails when the highlight colour is the fill colour: the
    highlighted word "Hi" of a yellow caption, highlighted in yellow, is
    drawn with stroke width 1, and its outline copy at [(9, 10)] is in
    the black stroke colour, which is neither the fill colour nor the
    highlight colour. *)
Lemma highlighted_outline_in_stroke_colour :
  exists img c,
    create_word_highlighted_caption Samples.load_mono "Hi" "hi" 100 100
      Samples.yellow_style "#FFFF00" = Ok img /\
    lower "Hi" = lower "hi" /\
    0 < stroke_width Samples.yellow_style /\
    In c (calls img) /\
    call_text c = "Hi" /\ xy c = (9, 10) /\
    fill c = _hex_to_rgb (stroke_color Samples.yellow_style) /\
    fill c <> _hex_to_rgb (font_color Samples.yellow_style) /\
    fill c <> _hex_to_rgb "#FFFF00".
Proof.
  eexists. exists {| xy := (9, 10); call_text := "Hi"; fill := (0, 0, 0) |}.
  split; [vm_compute; reflexivity |].
  repeat split; try reflexivity; try (vm_compute; congruence).
  cbn. left. reflexivity.
Qed.

(** The whole call list of that caption. *)
Lemma yellow_caption_calls :
  create_word_highlighted_caption Samples.load_mono "Hi" "hi" 100 100
    Samples.yellow_style "#FFFF00"
  = Ok {| size := (100, 48);
          calls :=
            [ {| xy := (9, 10); call_text := "Hi"; fill := (0, 0, 0) |};
              {| xy := (10, 9); call_text := "Hi"; fill := (0, 0, 0) |};
              {| xy := (10, 10); call_text := "Hi"; fill := (0, 0, 0) |};
              {| xy := (10, 11); call_text := "Hi"; fill := (0, 0, 0) |};
              {| xy := (11, 10); call_text := "Hi"; fill := (0, 0, 0) |};
              {| xy := (10, 10); call_text := "Hi"; fill := (255, 255, 0) |} ] |}.
Proof. vm_compute. reflexivity. Qed.

End RenderFacts.

(** ** Word timing *)

Module TimingFacts.
Import Py Schemas VideoProcessor Reference.

Lemma timings_loop_from (S tpw : float) (words : list string) :
  forall i acc,
    timings_loop S tpw words i acc = acc ++ timings_from S tpw i words.
Proof.
  induction words as [| w rest IH]; intros i acc; cbn.
  - now rewrite app_nil_r.
  - rewrite IH. now rewrite <- app_assoc.
Qed.

Lemma timings_from_length (S tpw : float) (words : list string) :
  forall i, List.length (timings_from S tpw i words) = List.length words.
Proof. induction words as [| w rest IH]; intros i; cbn; [reflexivity | now rewrite IH]. Qed.

Lemma timings_from_words (S tpw : float) (words : list string) :
  forall i, map word (timings_from S tpw i words) = words.
Proof. induction words as [| w rest IH]; intros i; cbn; [reflexivity | now rewrite IH]. Qed.

Lemma timings_from_nth (S tpw : float) (words : list string) :
  forall i k,
    nth_error (timings_from S tpw i words) k
    = option_map (timing_at S tpw (i + Z.of_nat k)) (nth_error words k).
Proof.
  induction words as [| w rest IH]; intros i k.
  - now destruct k.
  - destruct k as [| k]; cbn [timings_from nth_error option_map].
    + now rewrite Z.add_0_r.
    + rewrite IH. do 2 f_equal. lia.
Qed.

(** What the splitter returns, in closed form. *)
Lemma split_segment_closed_form (segment : CaptionSegment) :
  let words := split (text segment) in
  let time_per_word :=
    PrimFloat.div (PrimFloat.sub (end_time segment) (start_time segment))
      (float_of_int (Z.of_nat (List.length words))) in
  _split_segment_into_words segment
  = timings_from (start_time segment) time_per_word 0 words.
Proof.
  intros words time_per_word.
  unfold _split_segment_into_words, split_segment_try, truediv.
  fold words.
  destruct (Z.eqb_spec (Z.of_nat (List.length words)) 0) as [Hz | Hnz]; cbn [bind].
  - destruct words; [reflexivity | discriminate Hz].
  - now rewrite timings_loop_from.
Qed.

(** C2: for a segment with span [S, E) whose text has the [N] words
    [w_0 .. w_(N-1)], the splitter returns [N] entries, entry [i] being
    word [w_i] with [start = S + i * ((E - S) / N)] and
    [end = S + (i + 1) * ((E - S) / N)] in binary64 arithmetic; the end
    of each entry is the very value that starts the next one (so Python's
    [==] holds between them whenever that value is a number); with no
    word at all the result is the empty list. *)
Theorem split_segment_even_timing (segment : CaptionSegment) :
  let words := split (text segment) in
  let N := List.length words in
  let S := start_time segment in
  let E := end_time segment in
  let per_word := PrimFloat.div (PrimFloat.sub E S) (float_of_int (Z.of_nat N)) in
  let result := _split_segment_into_words segment in
  List.length result = N /\
  map word result = words /\
  (forall i w,
     nth_error words i = Some w ->
     nth_error result i =
       Some {| word := w;
               start := PrimFloat.add S (PrimFloat.mul (float_of_int (Z.of_nat i)) per_word);
               end_ := PrimFloat.add S
                         (PrimFloat.mul (float_of_int (Z.of_nat i + 1)) per_word) |}) /\
  (forall i a b,
     nth_error result i = Some a -> nth_error result (i + 1) = Some b ->
     end_ a = start b /\
     (PrimFloat.is_nan (end_ a) = false -> PrimFloat.eqb (end_ a) (start b) = true)) /\
  (N = 0%nat -> result = []).
Proof.
  intros words N S E per_word result.
  assert (Hres : result = timings_from S per_word 0 words)
    by apply split_segment_closed_form.
  rewrite Hres.
  split; [apply timings_from_length |].
  split; [apply timings_from_words |].
  split; [| split].
  - intros i w Hw. rewrite timings_from_nth, Hw. reflexivity.
  - intros i a b Ha Hb.
    rewrite timings_from_nth in Ha, Hb.
    destruct (nth_error words i) as [wa |]; [| discriminate Ha].
    destruct (nth_error words (i + 1)) as [wb |]; [| discriminate Hb].
    cbn [option_map] in Ha, Hb. injection Ha as <-. injection Hb as <-.
    cbn [end_ start timing_at].
    replace (Z.of_nat (i + 1)) with (Z.of_nat i + 1) by lia.
    split; [reflexivity |].
    unfold PrimFloat.is_nan. intros Hnum. now apply negb_false_iff in Hnum.
  - intros HN. destruct words; [reflexivity | discriminate HN].
Qed.

Lemma split_segment_even_timing_witness :
  nth_error (_split_segment_into_words Samples.hello_segment) 1
  = Some {| word := "world";
            start := PrimFloat.add 0
                       (PrimFloat.mul (float_of_int 1)
                          (PrimFloat.div (PrimFloat.sub 10 0) (float_of_int 3)));
            end_ := PrimFloat.add 0
                      (PrimFloat.mul (float_of_int 2)
                         (PrimFloat.div (PrimFloat.sub 10 0) (float_of_int 3))) |}.
Proof.
  apply (split_segment_even_timing Samples.hello_segment).
  reflexivity.
Defined.

(** The example of the specification and of the test-suite: three words
    over ten seconds. *)
Lemma split_segment_hello :
  let result := _split_segment_into_words Samples.hello_segment in
  let near (x : float) (lo hi : Z) : bool :=
    PrimFloat.ltb (PrimFloat.div (float_of_int lo) (float_of_int 100)) x
    && PrimFloat.ltb x (PrimFloat.div (float_of_int hi) (float_of_int 100)) in
  map word result = ["Hello"; "world"; "test"] /\
  match result with
  | [a; b; c] =>
      PrimFloat.eqb (start a) 0 = true /\
      near (start b) 333 334 = true /\ near (start c) 666 667 = true /\
      PrimFloat.eqb (end_ a) (start b) = true /\
      PrimFloat.eqb (end_ b) (start c) = true /\
      PrimFloat.eqb (end_ c) 10 = true
  | _ => False
  end.
Proof. vm_compute. repeat split. Qed.

(** A text without any word raises [ZeroDivisionError] inside the
    splitter, which the handler turns into the empty list. *)
Lemma split_segment_blank (S E : float) (conf : option float) :
  split_segment_try {| start_time := S; end_time := E; text := "   "; confidence := conf |}
    = Raise ZeroDivisionError /\
  _split_segment_into_words
    {| start_time := S; end_time := E; text := "   "; confidence := conf |} = [].
Proof. split; reflexivity. Qed.

End TimingFacts.

(** * Further properties *)

(** ** More on strings *)

Module PyExtFacts.
Import Py PyFacts PyExt.

Lemma split_from_blank (s : string) :
  String.length s = 0%nat -> split_from s EmptyString = [].
Proof. destruct s; [reflexivity | discriminate]. Qed.

Lemma split_lstrip (s : string) : split (lstrip_ws s) = split s.
Proof.
  unfold split. induction s as [| c s IH]; [reflexivity |].
  cbn [lstrip_ws split_from]. destruct (isspace c) eqn:Hc.
  - exact IH.
  - cbn [split_from]. now rewrite Hc.
Qed.

Lemma split_from_rstrip (s : string) :
  forall acc, split_from (rstrip_ws s) acc = split_from s acc.
Proof.
  induction s as [| c s IH]; intros acc; [reflexivity |].
  cbn [rstrip_ws]. destruct (isspace c) eqn:Hc; cbn [andb].
  - destruct (String.length (rstrip_ws s) =? 0)%nat eqn:Hr.
    + apply Nat.eqb_eq in Hr.
      cbn [split_from]. rewrite Hc.
      rewrite <- (IH EmptyString), (split_from_blank _ Hr).
      now destruct (String.length acc =? 0)%nat.
    + cbn [split_from]. rewrite Hc, !IH. reflexivity.
  - cbn [split_from]. rewrite Hc. apply IH.
Qed.

(** Stripping a text does not change its words. *)
Lemma split_strip (s : string) : split (strip s) = split s.
Proof.
  unfold strip, split at 1. rewrite split_from_rstrip. apply split_lstrip.
Qed.

Lemma in_all_ascii (a : ascii) : In a Enumerate.all_ascii.
Proof.
  unfold Enumerate.all_ascii. apply in_map_iff.
  exists (nat_of_ascii a). split; [apply ascii_nat_embedding |].
  apply in_seq. pose proof (nat_ascii_bounded a). lia.
Qed.

End PyExtFacts.

(** ** More on colours *)

Module HexMore.
Import Py PyFacts PyExt PyExtFacts CaptionRenderer.

Lemma short_strings_checked : Enumerate.short_strings_within (-15) 255 = true.
Proof. vm_compute. reflexivity. Qed.

(** Up to two characters read in base 16 give a value from -15 to 255. *)
Lemma int16_short (x : string) (v : Z) :
  (String.length x <= 2)%nat -> int16 x = Ok v -> -15 <= v <= 255.
Proof.
  intros Hlen Hx.
  assert (Hin : Enumerate.int16_within (-15) 255 x = true).
  { pose proof short_strings_checked as Hall.
    unfold Enumerate.short_strings_within in Hall.
    apply andb_prop in Hall as [H0 Hall].
    rewrite forallb_forall in Hall.
    destruct x as [| a [| b [| c x]]]; [exact H0 | | | cbn in Hlen; lia].
    - specialize (Hall a (in_all_ascii a)). now apply andb_prop in Hall as [H1 _].
    - specialize (Hall a (in_all_ascii a)). apply andb_prop in Hall as [_ H2].
      rewrite forallb_forall in H2. exact (H2 b (in_all_ascii b)). }
  unfold Enumerate.int16_within in Hin. rewrite Hx in Hin.
  apply andb_prop in Hin as [Hlo Hhi]. lia.
Qed.

Lemma slice_length (i n : nat) (s : string) : (String.length (slice i n s) <= n)%nat.
Proof.
  unfold slice. revert i n. induction s as [| c s IH]; intros i n.
  - destruct i, n; cbn; lia.
  - destruct i as [| i]; destruct n as [| n]; cbn; try lia.
    + specialize (IH 0%nat n). lia.
    + apply (IH i 0%nat).
    + apply (IH i (S n)).
Qed.

(** X1: Every colour the parser returns has its three components between -15
    and 255: never above a byte, but possibly negative, when a pair of
    characters is a minus sign and a digit. *)
Theorem hex_to_rgb_components (s : string) :
  let '(r, g, b) := _hex_to_rgb s in
  -15 <= r <= 255 /\ -15 <= g <= 255 /\ -15 <= b <= 255.
Proof.
  unfold _hex_to_rgb, hex_to_rgb_try.
  set (h := lstrip "#" s).
  destruct (int16 (slice 0 2 h)) as [r | e] eqn:Hr; cbn [bind]; [| cbn; lia].
  destruct (int16 (slice 2 2 h)) as [g | e] eqn:Hg; cbn [bind]; [| cbn; lia].
  destruct (int16 (slice 4 2 h)) as [b | e] eqn:Hb; cbn [bind]; [| cbn; lia].
  pose proof (int16_short _ _ (slice_length 0 2 h) Hr).
  pose proof (int16_short _ _ (slice_length 2 2 h) Hg).
  pose proof (int16_short _ _ (slice_length 4 2 h) Hb).
  auto.
Qed.

Lemma substring_append (i n : nat) (s t : string) :
  (i + n <= String.length s)%nat -> substring i n (s ++ t) = substring i n s.
Proof.
  revert i n. induction s as [| c s IH]; intros i n Hlen; cbn in Hlen.
  - assert (i = 0%nat /\ n = 0%nat) as [-> ->] by lia. now destruct t.
  - destruct i as [| i]; destruct n as [| n]; cbn; try reflexivity.
    + f_equal. apply (IH 0%nat n). lia.
    + apply (IH i 0%nat). lia.
    + apply (IH i (S n)). lia.
Qed.

Lemma lstrip_append (c : ascii) (s t : string) :
  (0 < String.length (lstrip c s))%nat ->
  lstrip c (s ++ t) = (lstrip c s ++ t)%string.
Proof.
  induction s as [| a s IH]; cbn; intros Hlen; [lia |].
  destruct (Ascii.eqb a c); [now apply IH | reflexivity].
Qed.

(** X2: Whatever follows the sixth character after the leading [#]s is
    ignored. *)
Theorem hex_to_rgb_ignores_tail (s t : string) :
  (6 <= String.length (lstrip "#" s))%nat ->
  _hex_to_rgb (s ++ t) = _hex_to_rgb s.
Proof.
  intros Hlen. unfold _hex_to_rgb, hex_to_rgb_try.
  rewrite lstrip_append by lia. unfold slice.
  rewrite !substring_append by lia. reflexivity.
Qed.

Lemma hex_to_rgb_ignores_tail_witness :
  _hex_to_rgb ("#FF8000" ++ "80") = _hex_to_rgb "#FF8000".
Proof. apply hex_to_rgb_ignores_tail. cbn. lia. Defined.

Lemma lower_char_plain (c : ascii) :
  int_space (lower_char c) = int_space c /\
  hex_digit (lower_char c) = hex_digit c /\
  Ascii.eqb (lower_char c) "+" = Ascii.eqb c "+" /\
  Ascii.eqb (lower_char c) "-" = Ascii.eqb c "-" /\
  Ascii.eqb (lower_char c) "_" = Ascii.eqb c "_" /\
  Ascii.eqb (lower_char c) "0" = Ascii.eqb c "0" /\
  Ascii.eqb (lower_char c) "#" = Ascii.eqb c "#" /\
  (Ascii.eqb (lower_char c) "x" || Ascii.eqb (lower_char c) "X")
    = (Ascii.eqb c "x" || Ascii.eqb c "X").
Proof. destruct c as [[] [] [] [] [] [] [] []]; vm_compute; repeat split. Qed.

Lemma lower_length (s : string) : String.length (lower s) = String.length s.
Proof. induction s as [| c s IH]; cbn; [reflexivity | now rewrite IH]. Qed.

Lemma skip_space_lower (s : string) : skip_space (lower s) = lower (skip_space s).
Proof.
  induction s as [| c s IH]; [reflexivity |].
  cbn [lower skip_space]. destruct (lower_char_plain c) as (-> & _).
  destruct (int_space c); [exact IH | reflexivity].
Qed.

Lemma read_sign_lower (s : string) :
  read_sign (lower s) = (fst (read_sign s), lower (snd (read_sign s))).
Proof.
  destruct s as [| c s]; [reflexivity |].
  cbn [lower read_sign]. destruct (lower_char_plain c) as (_ & _ & -> & -> & _).
  destruct (Ascii.eqb c "+"); [reflexivity |].
  destruct (Ascii.eqb c "-"); reflexivity.
Qed.

Lemma read_prefix16_lower (s : string) :
  read_prefix16 (lower s) = lower (read_prefix16 s).
Proof.
  destruct s as [| z [| x r]]; try reflexivity.
  cbn [lower read_prefix16].
  destruct (lower_char_plain z) as (_ & _ & _ & _ & _ & -> & _).
  destruct (lower_char_plain x) as (_ & _ & _ & _ & _ & _ & _ & ->).
  destruct (Ascii.eqb z "0" && (Ascii.eqb x "x" || Ascii.eqb x "X")); [| reflexivity].
  destruct r as [| u r']; [reflexivity |]. cbn [lower].
  destruct (lower_char_plain u) as (_ & _ & _ & _ & -> & _).
  destruct (Ascii.eqb u "_"); reflexivity.
Qed.

Lemma scan_digits_lower (s : string) :
  forall acc seen prev_us,
    scan_digits (lower s) acc seen prev_us
    = match scan_digits s acc seen prev_us with
      | Some (v, rest) => Some (v, lower rest)
      | None => None
      end.
Proof.
  induction s as [| c s IH]; intros acc seen prev_us.
  - cbn. destruct prev_us, seen; reflexivity.
  - cbn [lower scan_digits].
    destruct (lower_char_plain c) as (_ & -> & _ & _ & -> & _).
    destruct (hex_digit c); [apply IH |].
    destruct (Ascii.eqb c "_").
    + destruct prev_us; [reflexivity | apply IH].
    + destruct prev_us, seen; reflexivity.
Qed.

(** [int(., 16)] does not tell upper case from lower case. *)
Lemma int16_lower (s : string) : int16 (lower s) = int16 s.
Proof.
  unfold int16. rewrite skip_space_lower, read_sign_lower.
  destruct (read_sign (skip_space s)) as [neg s2]. cbn [fst snd].
  rewrite read_prefix16_lower.
  set (s3 := read_prefix16 s2).
  assert (Hus : starts_with_underscore (lower s3) = starts_with_underscore s3).
  { destruct s3 as [| c s3]; [reflexivity |]. cbn.
    now destruct (lower_char_plain c) as (_ & _ & _ & _ & -> & _). }
  rewrite Hus. destruct (starts_with_underscore s3); [reflexivity |].
  rewrite scan_digits_lower.
  destruct (scan_digits s3 0 false false) as [[v rest] |]; [| reflexivity].
  rewrite skip_space_lower. now destruct (skip_space rest).
Qed.

Lemma substring_lower (i n : nat) (s : string) :
  substring i n (lower s) = lower (substring i n s).
Proof.
  revert i n. induction s as [| c s IH]; intros i n.
  - destruct i, n; reflexivity.
  - destruct i as [| i]; destruct n as [| n]; cbn; try reflexivity.
    + now rewrite IH.
    + apply IH.
    + apply IH.
Qed.

Lemma lstrip_hash_lower (s : string) : lstrip "#" (lower s) = lower (lstrip "#" s).
Proof.
  induction s as [| c s IH]; [reflexivity |].
  cbn [lower lstrip]. destruct (lower_char_plain c) as (_ & _ & _ & _ & _ & _ & -> & _).
  destruct (Ascii.eqb c "#"); [exact IH | reflexivity].
Qed.

(** X3: Colour parsing does not depend on the case of the letters. *)
Theorem hex_to_rgb_case_insensitive (s : string) :
  _hex_to_rgb (lower s) = _hex_to_rgb s.
Proof.
  unfold _hex_to_rgb, hex_to_rgb_try.
  rewrite lstrip_hash_lower. unfold slice.
  now rewrite !substring_lower, !int16_lower.
Qed.

End HexMore.

(** ** More on wrapping *)

Module WrapMore.
Import Py PyFacts CaptionRenderer Reference WrapFacts.

Local Abbreviation words_ok := (Forall (fun w => is_word w = true)).

(** A line in normal form: it holds a word, and its words are separated
    by single blanks with nothing before or after. *)
Local Abbreviation normal :=
  (fun line : string => split line <> [] /\ join " " (split line) = line).

Lemma join_normal (ws : list string) : words_ok ws -> ws <> [] -> normal (join " " ws).
Proof.
  intros Hws Hne. cbv beta. rewrite (split_join ws Hws). now split.
Qed.

Lemma wrap_loop_normal_lines (font : ImageFont) (max_width : Z) (words : list string) :
  forall lines current lines' current',
    words_ok words -> words_ok current -> Forall normal lines ->
    wrap_loop font max_width words lines current = Ok (lines', current') ->
    Forall normal lines' /\ words_ok current'.
Proof.
  induction words as [| word rest IH]; intros lines current lines' current' Hw Hc Hl Hrun.
  - cbn in Hrun. injection Hrun as <- <-. now split.
  - inversion Hw as [| w' r' Hword Hrest]; subst.
    cbn [wrap_loop] in Hrun.
    destruct (text_width font (join " " (current ++ [word]))) as [w | e];
      cbn [bind] in Hrun; [| discriminate Hrun].
    destruct (w <=? max_width).
    + apply IH in Hrun; [exact Hrun | exact Hrest | | exact Hl].
      apply Forall_app. split; [exact Hc | now constructor].
    + destruct current as [| c0 current]; cbn [nonempty] in Hrun.
      * apply IH in Hrun; [exact Hrun | exact Hrest | constructor |].
        apply Forall_app. split; [exact Hl |]. constructor; [| constructor].
        apply (join_normal [word]); [now constructor | discriminate].
      * apply IH in Hrun; [exact Hrun | exact Hrest | now constructor |].
        apply Forall_app. split; [exact Hl |]. constructor; [| constructor].
        apply join_normal; [exact Hc | discriminate].
Qed.

Lemma wrap_loop_no_word (font : ImageFont) (max_width : Z) (lines current : list string) :
  wrap_loop font max_width [] lines current = Ok (lines, current).
Proof. reflexivity. Qed.

Lemma flat_map_length_le {A B : Type} (f : A -> list B) (l : list A) :
  Forall (fun a => f a <> []) l -> (List.length l <= List.length (flat_map f l))%nat.
Proof.
  induction 1 as [| a l Ha _ IH]; cbn; [lia |].
  rewrite length_app. destruct (f a); [contradiction | cbn; lia].
Qed.

(** X4: Every line [_wrap_text] returns holds at least one word, whatever the
    font does; so there are at most as many lines as words, and none for
    a text without words. *)
Theorem wrap_text_lines_have_words (text : string) (font : ImageFont) (max_width : Z) :
  let lines := _wrap_text text font max_width in
  Forall (fun line => split line <> []) lines /\
  (List.length lines <= List.length (split text))%nat /\
  (split text = [] -> lines = []).
Proof.
  intros lines.
  assert (Hwords : Forall (fun line => split line <> []) lines).
  { unfold lines, _wrap_text, wrap_text_try.
    destruct (wrap_loop font max_width (split text) [] []) as [[ls cur] | e] eqn:Hrun;
      cbn [bind].
    - apply wrap_loop_normal_lines in Hrun as [Hl Hc];
        [| apply split_words | constructor | constructor].
      assert (Hl' : Forall (fun line => split line <> []) ls).
      { eapply Forall_impl; [| exact Hl]. now intros l [H _]. }
      destruct cur as [| c0 cur]; cbn [nonempty]; [exact Hl' |].
      apply Forall_app. split; [exact Hl' |]. constructor; [| constructor].
      apply (join_normal (c0 :: cur)); [exact Hc | discriminate].
    - constructor; [| constructor].
      intros Hnil. rewrite Hnil in Hrun. discriminate Hrun. }
  split; [exact Hwords |]. split.
  - rewrite <- (wrap_text_words text font max_width).
    now apply flat_map_length_le.
  - intros Hnil. unfold lines, _wrap_text, wrap_text_try. now rewrite Hnil.
Qed.

Lemma wrap_text_lines_have_words_witness :
  _wrap_text "   " Samples.broken_font 100 = [].
Proof.
  apply (wrap_text_lines_have_words "   " Samples.broken_font 100). reflexivity.
Defined.

(** X5: With a font that measures every text, each returned line is its own
    words joined by single blanks: runs of whitespace, tabs and line
    breaks of the input never reach the caption. *)
Theorem wrap_text_lines_normalised (text : string) (font : ImageFont)
    (width : string -> Z) (max_width : Z) (line : string) :
  (forall s, text_width font s = Ok (width s)) ->
  In line (_wrap_text text font max_width) ->
  join " " (split line) = line.
Proof.
  intros Hm Hin. unfold _wrap_text, wrap_text_try in Hin.
  destruct (wrap_loop_greedy font max_width width Hm (split text) [] []
              (split_words text) ltac:(constructor)) as (ls & cur & Hrun & _).
  rewrite Hrun in Hin. cbn [bind] in Hin.
  apply wrap_loop_normal_lines in Hrun as [Hl Hc];
    [| apply split_words | constructor | constructor].
  rewrite Forall_forall in Hl.
  destruct cur as [| c0 cur]; cbn [nonempty] in Hin.
  - now apply Hl.
  - apply in_app_or in Hin as [Hin | [<- | []]]; [now apply Hl |].
    apply (join_normal (c0 :: cur)); [exact Hc | discriminate].
Qed.

Lemma wrap_text_lines_normalised_witness :
  join " " (split "Hello world") = "Hello world".
Proof.
  apply (wrap_text_lines_normalised "  Hello   world " Samples.mono_font
           Samples.pitch10 1000 "Hello world").
  - intros s. unfold text_width. cbn. f_equal. lia.
  - vm_compute. left. reflexivity.
Defined.

Lemma join_app (ws rest : list string) :
  ws <> [] -> rest <> [] ->
  join " " (ws ++ rest) = (join " " ws ++ " " ++ join " " rest)%string.
Proof.
  intros Hws Hrest. induction ws as [| a ws IH]; [contradiction |].
  destruct ws as [| b ws].
  - destruct rest; [contradiction | reflexivity].
  - change (join " " ((a :: b :: ws) ++ rest))
      with (a ++ " " ++ join " " ((b :: ws) ++ rest))%string.
    rewrite IH by discriminate.
    change (join " " (a :: b :: ws)) with (a ++ " " ++ join " " (b :: ws))%string.
    now rewrite !append_assoc.
Qed.

Section OneLine.

Variable width : string -> Z.
Variable max_width : Z.
Hypothesis width_monotone : forall a b, width a <= width (a ++ " " ++ b)%string.

Lemma prefix_fits (ws rest : list string) :
  ws <> [] ->
  width (join " " (ws ++ rest)) <= max_width -> width (join " " ws) <= max_width.
Proof.
  intros Hws Hfit. destruct rest as [| r rest]; [now rewrite app_nil_r in Hfit |].
  rewrite join_app in Hfit by (assumption || discriminate).
  pose proof (width_monotone (join " " ws) (join " " (r :: rest))). lia.
Qed.

Lemma greedy_fill_one_line (rest : list string) :
  forall ws,
    words_ok ws -> ws <> [] -> words_ok rest ->
    width (join " " (ws ++ rest)) <= max_width ->
    greedy_fill width max_width rest (join " " ws) = [join " " (ws ++ rest)].
Proof.
  induction rest as [| w r IH]; intros ws Hws Hne Hrest Hfit;
    cbn [greedy_fill]; rewrite (join_length_zero ws Hws);
    destruct ws as [| a ws]; try contradiction.
  - now rewrite app_nil_r.
  - inversion Hrest as [| w' r' Hw Hr]; subst.
    assert (Happ : (a :: ws) ++ w :: r = ((a :: ws) ++ [w]) ++ r)
      by now rewrite <- app_assoc.
    rewrite <- join_snoc by discriminate.
    rewrite Happ in Hfit |- *.
    assert (Hne' : (a :: ws) ++ [w] <> []) by discriminate.
    destruct (Z.leb_spec (width (join " " ((a :: ws) ++ [w]))) max_width) as [_ | Hgt].
    + apply IH; [| exact Hne' | exact Hr | exact Hfit].
      apply Forall_app. split; [exact Hws | now constructor].
    + pose proof (prefix_fits _ r Hne' Hfit). lia.
Qed.

End OneLine.

(** X6: With a font whose measure never shrinks when words are appended, a
    text whose words fit on one line is returned as that one line, its
    words joined by single blanks. *)
Theorem wrap_text_fits_one_line (text : string) (font : ImageFont)
    (width : string -> Z) (max_width : Z) :
  (forall s, text_width font s = Ok (width s)) ->
  (forall a b, width a <= width (a ++ " " ++ b)%string) ->
  split text <> [] ->
  width (join " " (split text)) <= max_width ->
  _wrap_text text font max_width = [join " " (split text)].
Proof.
  intros Hm Hmono Hne Hfit. unfold _wrap_text, wrap_text_try.
  destruct (wrap_loop_greedy font max_width width Hm (split text) [] []
              (split_words text) ltac:(constructor)) as (ls & cur & Hrun & Heq).
  rewrite Hrun. cbn [bind]. rewrite Heq. cbn [app join].
  pose proof (split_words text) as Hws.
  destruct (split text) as [| w ws]; [contradiction |].
  inversion Hws as [| w' ws' Hw Hrest]; subst.
  cbn [greedy_fill String.length Nat.eqb].
  destruct (Z.leb_spec (width w) max_width) as [_ | Hgt].
  - apply (greedy_fill_one_line width max_width Hmono ws [w]);
      [now constructor | discriminate | exact Hrest | exact Hfit].
  - pose proof (prefix_fits width max_width Hmono [w] ws ltac:(discriminate) Hfit).
    cbn [join] in H. lia.
Qed.

Lemma wrap_text_fits_one_line_witness :
  _wrap_text "  Hello   world " Samples.mono_font 1000 = ["Hello world"].
Proof.
  apply (wrap_text_fits_one_line "  Hello   world " Samples.mono_font
           Samples.pitch10 1000).
  - intros s. unfold text_width. cbn. f_equal. lia.
  - intros a b. unfold Samples.pitch10. rewrite !length_append. lia.
  - vm_compute. discriminate.
  - vm_compute. discriminate.
Defined.

End WrapMore.

(** ** More on placement *)

Module PositionMore.
Import CaptionRenderer PositionFacts.

(** X7: A caption that fits in the frame with its padding above and below is
    placed inside the frame, at least [padding] away from its top and
    bottom edges, whatever the mode. *)
Theorem caption_inside_frame (H h p : Z) (mode : string) :
  0 <= p -> h + 2 * p <= H ->
  p <= get_caption_position H h mode p /\
  get_caption_position H h mode p + h <= H - p.
Proof.
  intros Hp Hfit. unfold get_caption_position.
  pose proof (floor_half (H - h)).
  destruct (String.eqb (Py.lower mode) "top"); [lia |].
  destruct (String.eqb (Py.lower mode) "center"); lia.
Qed.

Lemma caption_inside_frame_witness :
  20 <= get_caption_position 1080 100 "Center" 20 /\
  get_caption_position 1080 100 "Center" 20 + 100 <= 1080 - 20.
Proof. apply (caption_inside_frame 1080 100 20 "Center"); lia. Defined.

(** The three modes mirror each other: "bottom" leaves below the caption
    the margin that "top" leaves above it, and "center" leaves below it
    the space it leaves above, or one pixel more. *)
Theorem caption_margins (H h p : Z) :
  get_caption_position H h "top" p = p /\
  H - (get_caption_position H h "bottom" p + h) = p /\
  0 <= (H - (get_caption_position H h "center" p + h))
       - get_caption_position H h "center" p <= 1.
Proof.
  change (get_caption_position H h "top" p) with p.
  change (get_caption_position H h "bottom" p) with (H - h - p).
  change (get_caption_position H h "center" p) with ((H - h) / 2).
  pose proof (floor_half (H - h)). lia.
Qed.

End PositionMore.

(** ** More on rasterisation *)

Module RenderMore.
Import Py PyFacts Schemas CaptionRenderer Reference RenderFacts Shapes.

(** Where a call draws and what it draws, without its colour. *)
Local Abbreviation place := (fun c : text_call => (xy c, call_text c)).

Lemma map_flat_map {A B C : Type} (g : B -> C) (f : A -> list B) (l : list A) :
  map g (flat_map f l) = flat_map (fun a => map g (f a)) l.
Proof.
  induction l as [| a l IH]; cbn; [reflexivity |].
  now rewrite map_app, IH.
Qed.

Lemma stroke_calls_place (x y : Z) (s : string) (sw : Z) (c1 c2 : rgb) :
  map place (stroke_calls x y s sw c1) = map place (stroke_calls x y s sw c2).
Proof.
  unfold stroke_calls. rewrite !map_flat_map.
  apply flat_map_ext. intros dx. now rewrite !map_map.
Qed.

Lemma outline_branch_place (calls1 calls2 : list text_call) (x y : Z) (s : string)
    (sw : Z) (c1 c2 : rgb) :
  map place calls1 = map place calls2 ->
  map place (if 0 <? sw then stroke_pass calls1 x y s sw c1 else calls1)
  = map place (if 0 <? sw then stroke_pass calls2 x y s sw c2 else calls2).
Proof.
  intros Heq. destruct (0 <? sw); [| exact Heq].
  rewrite !stroke_pass_calls, !map_app, Heq. f_equal. apply stroke_calls_place.
Qed.

Local Abbreviation same_places :=
  (fun a b : list text_call => map place a = map place b).

Lemma draw_words_place (font : ImageFont) (style : CaptionStyle)
    (fc sc h1 h2 : rgb) (w1 w2 : string) (y : Z) (words : list string) :
  forall calls1 calls2 x,
    same_places calls1 calls2 ->
    agree same_places
      (draw_words font style fc sc h1 w1 y words calls1 x)
      (draw_words font style fc sc h2 w2 y words calls2 x).
Proof.
  induction words as [| word rest IH]; intros calls1 calls2 x Heq; cbn [draw_words].
  - exact Heq.
  - cbv zeta. destruct (text_width font word) as [tw | e]; cbn [bind]; [| reflexivity].
    apply IH. cbv beta. unfold draw_text. rewrite !map_app. f_equal.
    now apply outline_branch_place.
Qed.

Lemma draw_highlighted_lines_place (font : ImageFont) (style : CaptionStyle)
    (fc sc h1 h2 : rgb) (w1 w2 : string) (lh : Z) (lines : list string) :
  forall calls1 calls2 y,
    same_places calls1 calls2 ->
    agree same_places
      (draw_highlighted_lines font style fc sc h1 w1 lh lines calls1 y)
      (draw_highlighted_lines font style fc sc h2 w2 lh lines calls2 y).
Proof.
  induction lines as [| line rest IH]; intros calls1 calls2 y Heq;
    cbn [draw_highlighted_lines].
  - exact Heq.
  - cbv zeta.
    pose proof (draw_words_place font style fc sc h1 h2 w1 w2 y (split line)
                  calls1 calls2 (padding style) Heq) as Hw.
    destruct (draw_words font style fc sc h1 w1 y (split line) calls1 (padding style));
      destruct (draw_words font style fc sc h2 w2 y (split line) calls2 (padding style));
      cbn [agree bind] in Hw |- *; try contradiction; [now apply IH | exact Hw].
Qed.

Section Renderer.

Variable _load_font : string -> Z -> ImageFont.


(** X8: Highlighting changes colours and nothing else: for one text, style and
    frame, whichever word is highlighted in whichever colour, the renderer
    raises the same exception or returns images of the same size whose
    calls draw the same words at the same places. *)
Theorem highlight_changes_colours_only (text word1 word2 : string)
    (video_width video_height : Z) (style : CaptionStyle) (colour1 colour2 : string) :
  agree (fun a b => size a = size b /\ map place (calls a) = map place (calls b))
    (create_word_highlighted_caption _load_font text word1 video_width
       video_height style colour1)
    (create_word_highlighted_caption _load_font text word2 video_width
       video_height style colour2).
Proof.
  unfold create_word_highlighted_caption.
  destruct (int_of_float _) as [max_width | e]; cbn [bind]; [| reflexivity].
  cbv zeta. destruct (Image_new _) as [blank | e]; cbn [bind]; [| reflexivity].
  match goal with
  | |- agree _ (bind ?r1 _) (bind ?r2 _) =>
      assert (Hd : agree same_places r1 r2)
        by (now apply draw_highlighted_lines_place);
      destruct r1, r2; cbn [agree bind] in Hd |- *; try contradiction; auto
  end.
Qed.

(** X9: The canvas of a caption: as wide as the video, and one line height
    ([font_size + 4]) per wrapped line plus the padding above and below
    high; an image is only returned when neither is negative. *)
Theorem caption_image_size (text : string) (video_width video_height : Z)
    (style : CaptionStyle) (max_width_ratio : float) (img : Image) :
  create_caption_image _load_font text video_width video_height style
    max_width_ratio = Ok img ->
  exists max_width,
    int_of_float (PrimFloat.mul (float_of_int video_width) max_width_ratio)
      = Ok max_width /\
    let lines :=
      _wrap_text text (_load_font (font_type style) (font_size style)) max_width in
    size img =
      (video_width,
       Z.of_nat (List.length lines) * (font_size style + 4) + padding style * 2) /\
    0 <= video_width /\
    0 <= Z.of_nat (List.length lines) * (font_size style + 4) + padding style * 2.
Proof.
  unfold create_caption_image. intros Hrun.
  destruct (int_of_float _) as [max_width | e]; cbn [bind] in Hrun; [| discriminate Hrun].
  exists max_width. split; [reflexivity |]. cbv zeta in Hrun |- *.
  unfold Image_new in Hrun. cbn [fst snd] in Hrun.
  destruct (Z.ltb_spec video_width 0) as [| Hw]; cbn [orb bind] in Hrun;
    [discriminate Hrun |].
  match type of Hrun with
  | context [?h <? 0] => destruct (Z.ltb_spec h 0) as [| Hh]
  end; cbn [bind] in Hrun; [discriminate Hrun |].
  destruct (draw_lines _ _ _ _ _ _ _ _ _) as [drawn | e]; cbn [bind] in Hrun;
    [| discriminate Hrun].
  injection Hrun as <-. cbn [size]. auto.
Qed.

(** The line loop draws line [k] at height [y0 + k * line_height],
    centred: its left edge is the floor of half the free width. *)
Lemma draw_lines_positions (font : ImageFont) (style : CaptionStyle) (video_width : Z)
    (font_color stroke_color : rgb) (line_height : Z) (lines : list string) :
  forall calls y0 drawn,
    draw_lines font style video_width font_color stroke_color line_height
      lines calls y0 = Ok drawn ->
    (forall c, In c calls -> In c drawn) /\
    forall k line,
      nth_error lines k = Some line ->
      exists tw,
        text_width font line = Ok tw /\
        In {| xy := ((video_width - tw) / 2, y0 + Z.of_nat k * line_height);
              call_text := line; fill := font_color |} drawn.
Proof.
  induction lines as [| l rest IH]; intros calls y0 drawn Hrun.
  - cbn in Hrun. injection Hrun as <-. split; [auto |].
    intros k line Hk. destruct k; discriminate Hk.
  - cbn [draw_lines] in Hrun.
    destruct (text_width font l) as [tw | e] eqn:Htw; cbn [bind] in Hrun;
      [| discriminate Hrun].
    cbv zeta in Hrun.
    destruct (outline_branch calls ((video_width - tw) / 2) y0 l
                (stroke_width style) stroke_color) as (outline & Hout & _).
    rewrite Hout in Hrun. unfold draw_text in Hrun.
    apply IH in Hrun as [Hkeep Hpos]. split.
    + intros c Hc. apply Hkeep. apply in_or_app. left. apply in_or_app. now left.
    + intros k line Hk. destruct k as [| k].
      * injection Hk as <-. exists tw. split; [exact Htw |].
        apply Hkeep. apply in_or_app. right. left.
        f_equal. f_equal. cbn. lia.
      * destruct (Hpos k line Hk) as (tw' & Htw' & Hin).
        exists tw'. split; [exact Htw' |].
        replace (y0 + Z.of_nat (S k) * line_height)
          with (y0 + line_height + Z.of_nat k * line_height) by lia.
        exact Hin.
Qed.

(** X10: Every wrapped line of a caption is drawn in the fill colour at its
    own height ([padding] plus one line height per line above it) and
    centred in the frame: the space to its left is the space to its
    right, or one pixel less. *)
Theorem caption_lines_centred (text : string) (video_width video_height : Z)
    (style : CaptionStyle) (max_width_ratio : float) (img : Image) :
  create_caption_image _load_font text video_width video_height style
    max_width_ratio = Ok img ->
  exists max_width,
    int_of_float (PrimFloat.mul (float_of_int video_width) max_width_ratio)
      = Ok max_width /\
    let font := _load_font (font_type style) (font_size style) in
    forall k line,
      nth_error (_wrap_text text font max_width) k = Some line ->
      exists tw x,
        text_width font line = Ok tw /\
        0 <= (video_width - (x + tw)) - x <= 1 /\
        In {| xy := (x, padding style + Z.of_nat k * (font_size style + 4));
              call_text := line;
              fill := _hex_to_rgb (font_color style) |} (calls img).
Proof.
  unfold create_caption_image. intros Hrun.
  destruct (int_of_float _) as [max_width | e]; cbn [bind] in Hrun; [| discriminate Hrun].
  exists max_width. split; [reflexivity |]. cbv zeta in Hrun |- *.
  destruct (Image_new _) as [blank | e]; cbn [bind] in Hrun; [| discriminate Hrun].
  destruct (draw_lines _ _ _ _ _ _ _ _ _) as [drawn | e] eqn:Hdraw; cbn [bind] in Hrun;
    [| discriminate Hrun].
  injection Hrun as <-. cbn [calls].
  apply draw_lines_positions in Hdraw as [_ Hpos].
  intros k line Hk. destruct (Hpos k line Hk) as (tw & Htw & Hin).
  exists tw, ((video_width - tw) / 2). split; [exact Htw |]. split; [| exact Hin].
  pose proof (PositionFacts.floor_half (video_width - tw)). lia.
Qed.


(** X13: A font that cannot measure makes [create_caption_image] raise on
    every text that has a word: [_wrap_text] recovers with the text as
    one line, but the line loop measures that line again. *)
Theorem unmeasurable_text_raises (text : string) (video_width video_height : Z)
    (style : CaptionStyle) (max_width_ratio : float) :
  (forall s, exists e,
      getbbox (_load_font (font_type style) (font_size style)) s = Raise e) ->
  split text <> [] ->
  exists e,
    create_caption_image _load_font text video_width video_height style
      max_width_ratio = Raise e.
Proof.
  intros Hfont Hne. unfold create_caption_image.
  destruct (int_of_float _) as [max_width | e]; cbn [bind]; [| eauto].
  cbv zeta. set (font := _load_font (font_type style) (font_size style)) in *.
  assert (Hlines : _wrap_text text font max_width = [text]).
  { unfold _wrap_text, wrap_text_try.
    destruct (split text) as [| w ws]; [contradiction |].
    cbn [wrap_loop]. unfold text_width.
    destruct (Hfont (join " " ([] ++ [w]))) as [e ->]. reflexivity. }
  rewrite Hlines.
  destruct (Image_new _) as [blank | e]; cbn [bind]; [| eauto].
  cbn [draw_lines]. unfold text_width. destruct (Hfont text) as [e ->].
  cbn [bind]. eauto.
Qed.

(** The word loop keeps what was drawn and draws word [j] at the cursor:
    [x0] plus, for each word before it, that word's width and 4 pixels. *)
Lemma draw_words_positions (font : ImageFont) (width : string -> Z)
    (style : CaptionStyle) (fc sc hl : rgb) (cw : string) (y : Z)
    (words : list string) :
  (forall s, text_width font s = Ok (width s)) ->
  forall calls x0,
    exists drawn,
      draw_words font style fc sc hl cw y words calls x0 = Ok drawn /\
      (forall c, In c calls -> In c drawn) /\
      forall j word,
        nth_error words j = Some word ->
        In {| xy := (x0 + fold_right Z.add 0
                            (map (fun w => width w + 4) (firstn j words)), y);
              call_text := word;
              fill := word_color fc hl cw word |} drawn.
Proof.
  intros Hm. induction words as [| w rest IH]; intros calls x0.
  - exists calls. split; [reflexivity |]. split; [auto |].
    intros j word Hj. destruct j; discriminate Hj.
  - cbn [draw_words]. cbv zeta. rewrite Hm. cbn [bind].
    fold (word_color fc hl cw w).
    destruct (outline_branch calls x0 y w (stroke_width style)
                (if rgb_eqb (word_color fc hl cw w) fc then sc else fc))
      as (outline & -> & _).
    unfold draw_text.
    destruct (IH ((calls ++ outline) ++ [{| xy := (x0, y); call_text := w;
                                            fill := word_color fc hl cw w |}])
                (x0 + (width w + 4))) as (drawn & -> & Hkeep & Hpos).
    exists drawn. split; [reflexivity |]. split.
    + intros c Hc. apply Hkeep. apply in_or_app. left. apply in_or_app. now left.
    + intros j word Hj. destruct j as [| j].
      * injection Hj as <-. apply Hkeep. apply in_or_app. right. left.
        cbn. now rewrite Z.add_0_r.
      * specialize (Hpos j word Hj). cbn [firstn map fold_right].
        now rewrite Z.add_assoc.
Qed.

Lemma draw_highlighted_lines_positions (font : ImageFont) (width : string -> Z)
    (style : CaptionStyle) (fc sc hl : rgb) (cw : string) (lh : Z)
    (lines : list string) :
  (forall s, text_width font s = Ok (width s)) ->
  forall calls y0,
    exists drawn,
      draw_highlighted_lines font style fc sc hl cw lh lines calls y0 = Ok drawn /\
      (forall c, In c calls -> In c drawn) /\
      forall k line j word,
        nth_error lines k = Some line ->
        nth_error (split line) j = Some word ->
        In {| xy := (padding style
                     + fold_right Z.add 0
                         (map (fun w => width w + 4) (firstn j (split line))),
                     y0 + Z.of_nat k * lh);
              call_text := word;
              fill := word_color fc hl cw word |} drawn.
Proof.
  intros Hm. induction lines as [| l rest IH]; intros calls y0.
  - exists calls. split; [reflexivity |]. split; [auto |].
    intros k line j word Hk. destruct k; discriminate Hk.
  - cbn [draw_highlighted_lines]. cbv zeta.
    destruct (draw_words_positions font width style fc sc hl cw y0 (split l) Hm
                calls (padding style)) as (mid & -> & Hkeep1 & Hpos1).
    cbn [bind].
    destruct (IH mid (y0 + lh)) as (drawn & -> & Hkeep2 & Hpos2).
    exists drawn. split; [reflexivity |]. split; [auto |].
    intros k line j word Hk Hj. destruct k as [| k].
    + injection Hk as <-. apply Hkeep2.
      rewrite Z.mul_0_l, Z.add_0_r. now apply Hpos1.
    + replace (y0 + Z.of_nat (S k) * lh) with (y0 + lh + Z.of_nat k * lh) by lia.
      now apply (Hpos2 k line j word).
Qed.

(** X11: In a word-highlighted caption the words of each wrapped line start at
    the left padding and follow one another, each word's width and 4
    pixels to the right of the one before; the lines are not centred.
    Each word is drawn there in the highlight colour if it equals the
    current word up to case, and in the fill colour otherwise. *)
Theorem highlighted_words_left_aligned (text current_word : string)
    (video_width video_height : Z) (style : CaptionStyle) (highlight_color : string)
    (width : string -> Z) (img : Image) :
  let font := _load_font (font_type style) (font_size style) in
  (forall s, text_width font s = Ok (width s)) ->
  create_word_highlighted_caption _load_font text current_word video_width
    video_height style highlight_color = Ok img ->
  exists max_width,
    int_of_float (PrimFloat.mul (float_of_int video_width) ratio_0_8) = Ok max_width /\
    forall k line j word,
      nth_error (_wrap_text text font max_width) k = Some line ->
      nth_error (split line) j = Some word ->
      In {| xy := (padding style
                   + fold_right Z.add 0
                       (map (fun w => width w + 4) (firstn j (split line))),
                   padding style + Z.of_nat k * (font_size style + 4));
            call_text := word;
            fill := if String.eqb (lower word) (lower current_word)
                    then _hex_to_rgb highlight_color
                    else _hex_to_rgb (font_color style) |} (calls img).
Proof.
  intros font Hm. unfold create_word_highlighted_caption. intros Hrun.
  destruct (int_of_float _) as [max_width | e]; cbn [bind] in Hrun; [| discriminate Hrun].
  exists max_width. split; [reflexivity |]. cbv zeta in Hrun. fold font in Hrun.
  destruct (Image_new _) as [blank | e]; cbn [bind] in Hrun; [| discriminate Hrun].
  destruct (draw_highlighted_lines_positions font width style
              (_hex_to_rgb (font_color style)) (_hex_to_rgb (stroke_color style))
              (_hex_to_rgb highlight_color) current_word (font_size style + 4)
              (_wrap_text text font max_width) Hm (calls blank) (padding style))
    as (drawn & Hdraw & _ & Hpos).
  rewrite Hdraw in Hrun. cbn [bind] in Hrun. injection Hrun as <-. cbn [calls].
  exact Hpos.
Qed.

End Renderer.

Lemma caption_image_size_witness :
  exists img,
    create_caption_image Samples.load_mono "Hi you" 100 100
      default_CaptionStyle ratio_0_8 = Ok img /\
    size img = (100, 1 * (24 + 4) + 10 * 2).
Proof.
  destruct (caption_image_size Samples.load_mono "Hi you" 100 100
              default_CaptionStyle ratio_0_8 _ ltac:(vm_compute; reflexivity))
    as (max_width & Hmw & Hsize & _).
  eexists. split; [vm_compute; reflexivity |].
  vm_compute in Hmw. injection Hmw as <-. exact Hsize.
Defined.

Lemma caption_lines_centred_witness :
  exists img tw x,
    create_caption_image Samples.load_mono "Hi you" 100 100
      default_CaptionStyle ratio_0_8 = Ok img /\
    text_width Samples.mono_font "Hi you" = Ok tw /\
    0 <= (100 - (x + tw)) - x <= 1 /\
    In {| xy := (x, 10 + 0 * 28); call_text := "Hi you"; fill := (255, 255, 255) |}
      (calls img).
Proof.
  destruct (caption_lines_centred Samples.load_mono "Hi you" 100 100
              default_CaptionStyle ratio_0_8 _ ltac:(vm_compute; reflexivity))
    as (max_width & Hmw & Hpos).
  vm_compute in Hmw. injection Hmw as <-.
  destruct (Hpos 0%nat "Hi you" ltac:(vm_compute; reflexivity)) as (tw & x & H1 & H2 & H3).
  eexists. exists tw, x. split; [vm_compute; reflexivity |]. auto.
Defined.


Lemma unmeasurable_text_raises_witness :
  exists e,
    create_caption_image (fun _ _ => Samples.broken_font) "Hi you" 100 100
      default_CaptionStyle ratio_0_8 = Raise e.
Proof.
  apply (unmeasurable_text_raises (fun _ _ => Samples.broken_font) "Hi you" 100 100
           default_CaptionStyle ratio_0_8).
  - intros s. exists FontError. reflexivity.
  - vm_compute. discriminate.
Defined.

Lemma highlighted_words_left_aligned_witness :
  exists img,
    create_word_highlighted_caption Samples.load_mono "Hi you" "YOU" 100 100
      default_CaptionStyle default_highlight_color = Ok img /\
    In {| xy := (10 + (20 + 4 + 0), 10 + 0 * 28); call_text := "you";
          fill := (255, 255, 0) |} (calls img).
Proof.
  destruct (highlighted_words_left_aligned Samples.load_mono "Hi you" "YOU" 100 100
              default_CaptionStyle default_highlight_color Samples.pitch10 _
              ltac:(intros s; unfold text_width; cbn; f_equal; lia)
              ltac:(vm_compute; reflexivity))
    as (max_width & Hmw & Hpos).
  vm_compute in Hmw. injection Hmw as <-.
  eexists. split; [vm_compute; reflexivity |].
  exact (Hpos 0%nat "Hi you" 1%nat "you" eq_refl eq_refl).
Defined.

End RenderMore.

(** ** Fonts *)

Module FontFacts.
Import Py PyFacts PyExt CaptionRenderer FontLoading Shapes.

Lemma available_loop_filter (m : Machine) (paths : list string) :
  forall acc, available_loop m paths acc = acc ++ filter (path_exists m) paths.
Proof.
  induction paths as [| p rest IH]; intros acc; cbn.
  - now rewrite app_nil_r.
  - destruct (path_exists m p); rewrite IH; [now rewrite <- app_assoc | reflexivity].
Qed.

Lemma get_default_fonts_nonempty (m : Machine) : _get_default_fonts m <> [].
Proof.
  unfold _get_default_fonts. destruct (available_loop m font_paths []); cbn; discriminate.
Qed.

(** X14: The list of default fonts is never empty: it is the candidate paths
    that exist, in their order, or, when none exists, the single name
    "default". *)
Theorem default_fonts_never_empty (m : Machine) :
  _get_default_fonts m <> [] /\
  ((forall p, In p font_paths -> path_exists m p = false) ->
   _get_default_fonts m = ["default"]) /\
  ((exists p, In p font_paths /\ path_exists m p = true) ->
   _get_default_fonts m = filter (path_exists m) font_paths /\
   forall p, In p (_get_default_fonts m) -> In p font_paths /\ path_exists m p = true).
Proof.
  unfold _get_default_fonts. rewrite available_loop_filter. cbn [app].
  set (found := filter (path_exists m) font_paths).
  assert (Hfound : forall p, In p found <-> In p font_paths /\ path_exists m p = true)
    by (intros p; apply filter_In).
  split; [| split].
  - destruct found; cbn; discriminate.
  - intros Hnone. destruct found as [| p rest]; [reflexivity |].
    destruct (proj1 (Hfound p) (or_introl eq_refl)) as [Hin Hex].
    rewrite (Hnone p Hin) in Hex. discriminate Hex.
  - intros (p & Hin & Hex).
    assert (Hp : In p found) by (apply Hfound; auto).
    destruct found as [| q rest]; [destruct Hp |]. cbn [nonempty].
    split; [reflexivity |]. intros r Hr. now apply Hfound.
Qed.

Lemma default_fonts_never_empty_witness :
  _get_default_fonts bare_machine = ["default"] /\
  _get_default_fonts linux_machine
  = filter (path_exists linux_machine) font_paths.
Proof.
  split.
  - apply (default_fonts_never_empty bare_machine). reflexivity.
  - apply (default_fonts_never_empty linux_machine).
    exists "/usr/share/fonts/truetype/dejavu/DejaVuSans.ttf".
    split; [cbn; auto | reflexivity].
Defined.

Lemma find_in_files_some (font_name font_dir : string) (files : list string) (p : string) :
  find_in_files font_name font_dir files = Some p ->
  exists file,
    In file files /\ font_file_matches font_name file = true /\
    p = os_path_join font_dir file.
Proof.
  induction files as [| f rest IH]; cbn; [discriminate |].
  destruct (font_file_matches font_name f) eqn:Hf.
  - intros [= <-]. exists f. auto.
  - intros H. destruct (IH H) as (file & Hin & Hm & Hp). exists file. auto.
Qed.

Lemma find_in_files_none (font_name font_dir : string) (files : list string) :
  find_in_files font_name font_dir files = None <->
  forall file, In file files -> font_file_matches font_name file = false.
Proof.
  induction files as [| f rest IH]; cbn.
  - split; [intros _ file [] | reflexivity].
  - destruct (font_file_matches font_name f) eqn:Hf.
    + split; [discriminate |]. intros H. rewrite (H f (or_introl eq_refl)) in Hf.
      discriminate Hf.
    + rewrite IH. split.
      * intros H file [<- | Hin]; auto.
      * intros H file Hin. apply H. now right.
Qed.

Lemma find_in_dirs_some (m : Machine) (font_name : string) (dirs : list string)
    (p : string) :
  find_in_dirs m font_name dirs = Ok (Some p) ->
  exists font_dir files file,
    In font_dir dirs /\ path_exists m font_dir = true /\
    listdir m font_dir = Ok files /\ In file files /\
    font_file_matches font_name file = true /\
    p = os_path_join font_dir file.
Proof.
  induction dirs as [| d rest IH]; cbn [find_in_dirs]; [discriminate |].
  destruct (path_exists m d) eqn:Hd.
  - destruct (listdir m d) as [files | e] eqn:Hl; cbn [bind]; [| discriminate].
    destruct (find_in_files font_name d files) as [q |] eqn:Hf.
    + intros [= <-]. apply find_in_files_some in Hf as (file & Hin & Hm & Hp).
      exists d, files, file. repeat split; auto. now left.
    + intros H. destruct (IH H) as (fd & fs & f & Hin & H').
      exists fd, fs, f. split; [now right | exact H'].
  - intros H. destruct (IH H) as (fd & fs & f & Hin & H').
    exists fd, fs, f. split; [now right | exact H'].
Qed.

(** X15: A path [_find_font_path] returns is an entry of one of the three font
    directories, one that exists: the entry contains the requested name
    (case ignored), ends in ".ttf" or ".otf" (case not ignored), and the
    path is the directory joined with the entry, which for an entry that
    is a plain name is the directory followed by the entry. *)
Theorem find_font_path_sound (m : Machine) (font_name p : string) :
  _find_font_path m font_name = Some p ->
  exists font_dir files file,
    In font_dir font_dirs /\ path_exists m font_dir = true /\
    listdir m font_dir = Ok files /\ In file files /\
    contains (lower font_name) (lower file) = true /\
    (endswith ".ttf" file = true \/ endswith ".otf" file = true) /\
    p = os_path_join font_dir file /\
    (has_char "/" file = false -> p = (font_dir ++ file)%string).
Proof.
  unfold _find_font_path. intros Hfound.
  destruct (find_in_dirs m font_name font_dirs) as [found | e] eqn:Hrun;
    [| discriminate Hfound].
  subst found. apply find_in_dirs_some in Hrun
    as (font_dir & files & file & Hdir & Hex & Hl & Hin & Hmatch & ->).
  exists font_dir, files, file.
  unfold font_file_matches in Hmatch. apply andb_prop in Hmatch as [Hname Hext].
  apply orb_prop in Hext.
  repeat split; auto.
  intros Hplain.
  assert (Hslash : endswith "/" font_dir = true).
  { cbn in Hdir. destruct Hdir as [<- | [<- | [<- | []]]]; reflexivity. }
  unfold os_path_join. rewrite Hslash, orb_true_r.
  destruct file as [| c file].
  - destruct Hext as [H | H]; discriminate H.
  - cbn in Hplain. apply orb_false_elim in Hplain as [Hc _]. now rewrite Hc.
Qed.

Lemma find_font_path_sound_witness :
  exists font_dir files file,
    In font_dir font_dirs /\ path_exists linux_machine font_dir = true /\
    listdir linux_machine font_dir = Ok files /\ In file files /\
    contains (lower "ROBOTO") (lower file) = true /\
    (endswith ".ttf" file = true \/ endswith ".otf" file = true) /\
    "/usr/share/fonts/Roboto-Regular.ttf" = os_path_join font_dir file /\
    (has_char "/" file = false ->
     "/usr/share/fonts/Roboto-Regular.ttf" = (font_dir ++ file)%string).
Proof.
  apply (find_font_path_sound linux_machine "ROBOTO"). reflexivity.
Defined.

Lemma find_in_dirs_none (m : Machine) (font_name : string) (dirs : list string) :
  (forall d, In d dirs -> path_exists m d = true -> exists files, listdir m d = Ok files) ->
  find_in_dirs m font_name dirs = Ok None <->
  forall font_dir files file,
    In font_dir dirs -> path_exists m font_dir = true ->
    listdir m font_dir = Ok files -> In file files ->
    font_file_matches font_name file = false.
Proof.
  induction dirs as [| d rest IH]; intros Hlist; cbn [find_in_dirs].
  - split; [intros _ fd fs f [] | reflexivity].
  - assert (Hrest : forall d0, In d0 rest -> path_exists m d0 = true ->
                               exists files, listdir m d0 = Ok files).
    { intros d0 Hd0. apply Hlist. now right. }
    specialize (IH Hrest).
    destruct (path_exists m d) eqn:Hd.
    + destruct (Hlist d (or_introl eq_refl) Hd) as [files Hl]. rewrite Hl. cbn [bind].
      destruct (find_in_files font_name d files) as [q |] eqn:Hf.
      * split; [discriminate |]. intros Hnone. exfalso.
        apply find_in_files_some in Hf as (file & Hin & Hm & _).
        rewrite (Hnone d files file (or_introl eq_refl) Hd Hl Hin) in Hm.
        discriminate Hm.
      * rewrite IH. split.
        -- intros H fd fs f [<- | Hin] Hex Hls Hf'.
           ++ rewrite Hl in Hls. injection Hls as <-.
              now apply (proj1 (find_in_files_none font_name d files) Hf).
           ++ now apply (H fd fs f).
        -- intros H fd fs f Hin. apply H. now right.
    + rewrite IH. split.
      * intros H fd fs f [<- | Hin] Hex; [congruence | now apply H].
      * intros H fd fs f Hin. apply H. now right.
Qed.

(** X16: When every font directory that exists can be listed, the search
    answers [None] exactly when no entry of any of them matches: no
    matching font is overlooked and nothing else ends the search. *)
Theorem find_font_path_none_iff (m : Machine) (font_name : string) :
  (forall d, In d font_dirs -> path_exists m d = true ->
             exists files, listdir m d = Ok files) ->
  _find_font_path m font_name = None <->
  forall font_dir files file,
    In font_dir font_dirs -> path_exists m font_dir = true ->
    listdir m font_dir = Ok files -> In file files ->
    font_file_matches font_name file = false.
Proof.
  intros Hlist. rewrite <- (find_in_dirs_none m font_name font_dirs Hlist).
  unfold _find_font_path.
  destruct (find_in_dirs m font_name font_dirs) as [[p |] | e] eqn:Hrun.
  - split; discriminate.
  - split; reflexivity.
  - exfalso. revert Hrun Hlist. generalize font_dirs as dirs.
    induction dirs as [| d rest IH]; cbn [find_in_dirs]; [discriminate |].
    intros Hrun Hlist.
    assert (Hrest : forall d0, In d0 rest -> path_exists m d0 = true ->
                               exists files, listdir m d0 = Ok files).
    { intros d0 Hd0. apply Hlist. now right. }
    destruct (path_exists m d) eqn:Hd; [| now apply IH].
    destruct (Hlist d (or_introl eq_refl) Hd) as [files Hl].
    rewrite Hl in Hrun. cbn [bind] in Hrun.
    destruct (find_in_files font_name d files); [discriminate Hrun | now apply IH].
Qed.

Lemma find_font_path_none_iff_witness :
  _find_font_path linux_machine "Helvetica" = None.
Proof.
  apply (find_font_path_none_iff linux_machine "Helvetica").
  - intros d Hd Hex. cbn in Hd. destruct Hd as [<- | [<- | [<- | []]]];
      try discriminate Hex. eexists. reflexivity.
  - intros fd fs f Hd Hex Hl Hin. cbn in Hd.
    destruct Hd as [<- | [<- | [<- | []]]]; try discriminate Hex.
    cbn in Hl. injection Hl as <-. cbn in Hin.
    destruct Hin as [<- | [<- | [<- | [<- | []]]]]; reflexivity.
Defined.

Lemma find_in_dirs_raises (m : Machine) (font_name : string)
    (before after : list string) (d : string) (e : exn) :
  (forall b, In b before ->
             path_exists m b = false \/
             exists files,
               listdir m b = Ok files /\
               forall file, In file files -> font_file_matches font_name file = false) ->
  path_exists m d = true -> listdir m d = Raise e ->
  find_in_dirs m font_name (before ++ d :: after) = Raise e.
Proof.
  intros Hbefore Hex Hl. induction before as [| b rest IH]; cbn [app find_in_dirs].
  - now rewrite Hex, Hl.
  - assert (Hrest : forall b0, In b0 rest ->
                      path_exists m b0 = false \/
                      exists files,
                        listdir m b0 = Ok files /\
                        forall file, In file files ->
                                     font_file_matches font_name file = false).
    { intros b0 Hb0. apply Hbefore. now right. }
    destruct (Hbefore b (or_introl eq_refl)) as [-> | (files & Hfiles & Hnone)];
      [now apply IH |].
    destruct (path_exists m b); [| now apply IH].
    rewrite Hfiles. cbn [bind].
    rewrite (proj2 (find_in_files_none font_name b files) Hnone). now apply IH.
Qed.

(** X17: A font directory that exists but cannot be listed ends the search:
    when it is reached before any match, the answer is [None], whatever
    the directories after it hold. *)
Theorem find_font_path_listing_fails (m : Machine) (font_name : string)
    (before after : list string) (d : string) (e : exn) :
  font_dirs = before ++ d :: after ->
  (forall b, In b before ->
             path_exists m b = false \/
             exists files,
               listdir m b = Ok files /\
               forall file, In file files -> font_file_matches font_name file = false) ->
  path_exists m d = true -> listdir m d = Raise e ->
  _find_font_path m font_name = None.
Proof.
  intros Hdirs Hbefore Hex Hl. unfold _find_font_path. rewrite Hdirs.
  now rewrite (find_in_dirs_raises m font_name before after d e Hbefore Hex Hl).
Qed.

Lemma find_font_path_listing_fails_witness :
  _find_font_path locked_machine "arial" = None.
Proof.
  apply (find_font_path_listing_fails locked_machine "arial"
           ["/System/Library/Fonts/"] ["C:/Windows/Fonts/"] "/usr/share/fonts/"
           FontError).
  - reflexivity.
  - intros b [<- | []]. left. reflexivity.
  - reflexivity.
  - reflexivity.
Defined.

(** *** The font cache *)

Lemma uint_no_underscore (d : Decimal.uint) :
  has_char "_" (DecimalString.NilEmpty.string_of_uint d) = false.
Proof. induction d; cbn; auto. Qed.

Lemma str_of_int_no_underscore (i : Z) : has_char "_" (str_of_int i) = false.
Proof.
  unfold str_of_int, DecimalString.NilZero.string_of_int,
    DecimalString.NilZero.string_of_uint.
  destruct (Z.to_int i) as [d | d]; destruct d; cbn; auto using uint_no_underscore.
Qed.

Lemma str_of_int_inj (i j : Z) : str_of_int i = str_of_int j -> i = j.
Proof.
  unfold str_of_int. intros Heq.
  apply DecimalZ.to_int_inj.
  assert (Hint : forall k,
             DecimalString.NilZero.int_of_string
               (DecimalString.NilZero.string_of_int (Z.to_int k)) = Some (Z.to_int k)).
  { intros k. apply DecimalString.NilZero.isi; destruct k; cbn; try discriminate;
      intros [= H]; now apply DecimalPos.Unsigned.to_uint_nonnil in H. }
  pose proof (Hint i) as Hi. rewrite Heq, Hint in Hi. now injection Hi.
Qed.

Lemma split_at_last_underscore (t1 t2 d1 d2 : string) :
  has_char "_" d1 = false -> has_char "_" d2 = false ->
  (t1 ++ "_" ++ d1)%string = (t2 ++ "_" ++ d2)%string ->
  t1 = t2 /\ d1 = d2.
Proof.
  intros H1 H2. revert t2.
  assert (Hmid : forall t d, has_char "_" (t ++ String "_" d) = true).
  { intros t d. induction t as [| c t IH]; cbn; [reflexivity |].
    rewrite IH. apply orb_true_r. }
  induction t1 as [| c t1 IH]; intros t2 Heq; destruct t2 as [| c2 t2]; cbn in Heq.
  - injection Heq as ->. auto.
  - injection Heq as <- ->. rewrite Hmid in H1. discriminate H1.
  - injection Heq as -> <-. rewrite Hmid in H2. discriminate H2.
  - injection Heq as -> Heq. destruct (IH t2 Heq) as [-> ->]. auto.
Qed.

Lemma cache_key_eq (t1 t2 : string) (s1 s2 : Z) :
  cache_key t1 s1 = cache_key t2 s2 -> t1 = t2 /\ s1 = s2.
Proof.
  unfold cache_key. intros Heq.
  apply split_at_last_underscore in Heq as [-> Hs];
    [| apply str_of_int_no_underscore | apply str_of_int_no_underscore].
  split; [reflexivity | now apply str_of_int_inj].
Qed.

(** X18: Cache keys do not collide: two requests have the same key exactly
    when they name the same family, letter for letter, and the same
    size. *)
Theorem cache_key_injective (t1 t2 : string) (s1 s2 : Z) :
  cache_key t1 s1 = cache_key t2 s2 <-> t1 = t2 /\ s1 = s2.
Proof.
  split; [apply cache_key_eq | now intros [-> ->]].
Qed.

Lemma cache_key_injective_witness : "Arial" = "Arial" /\ 24 = 24.
Proof. apply (cache_key_injective "Arial" "Arial" 24 24). reflexivity. Defined.

(** X19: Once a font was loaded for a family and a size, asking again returns
    that very font and leaves the cache as it is, whatever has happened
    to the font files in between. *)
Theorem load_font_warm_cache (m1 m2 : Machine) (self : Renderer)
    (font_type : string) (font_size : Z) :
  let '(font, self') := _load_font m1 self font_type font_size in
  _load_font m2 self' font_type font_size = (font, self').
Proof.
  unfold _load_font.
  destruct (font_cache self (cache_key font_type font_size)) as [f |] eqn:Hhit.
  - now rewrite Hhit.
  - cbn [font_cache]. unfold cache_set at 1. now rewrite String.eqb_refl.
Qed.

(** X20: Loading a font stores it under its own request only: what the cache
    holds for any other family or size is what it held before. *)
Theorem load_font_keeps_other_entries (m : Machine) (self : Renderer)
    (font_type other_type : string) (font_size other_size : Z) :
  (other_type, other_size) <> (font_type, font_size) ->
  let '(font, self') := _load_font m self font_type font_size in
  font_cache self' (cache_key font_type font_size) = Some font /\
  font_cache self' (cache_key other_type other_size)
  = font_cache self (cache_key other_type other_size).
Proof.
  intros Hother. unfold _load_font.
  destruct (font_cache self (cache_key font_type font_size)) as [f |] eqn:Hhit.
  - auto.
  - cbn [font_cache]. unfold cache_set. rewrite String.eqb_refl.
    split; [reflexivity |].
    destruct (String.eqb_spec (cache_key other_type other_size)
                (cache_key font_type font_size)) as [Heq | _]; [| reflexivity].
    apply cache_key_eq in Heq as [-> ->]. contradiction.
Qed.

Lemma load_font_keeps_other_entries_witness :
  let '(font, self') := _load_font linux_machine (new_Renderer linux_machine) "Roboto" 24 in
  font_cache self' (cache_key "Roboto" 24) = Some font /\
  font_cache self' (cache_key "Roboto" 36)
  = font_cache (new_Renderer linux_machine) (cache_key "Roboto" 36).
Proof.
  apply (load_font_keeps_other_entries linux_machine (new_Renderer linux_machine)
           "Roboto" "Roboto" 24 36).
  discriminate.
Defined.

Lemma font_at_cases (m : Machine) (font_path : option string) (font_size : Z) :
  (match font_at m font_path font_size with
   | Returned font => font
   | Threw _ => load_default m
   end = load_default m) \/
  exists p font,
    font_path = Some p /\ p <> "" /\ truetype m p font_size = Ok font /\
    font_at m font_path font_size = Returned font.
Proof.
  unfold font_at. destruct font_path as [p |]; [| now left].
  destruct p as [| c p]; [now left |]. cbn [String.length Nat.eqb].
  destruct (truetype m (String c p) font_size) as [f | e] eqn:Ht; cbn; [| now left].
  right. exists (String c p), f. repeat split; auto. discriminate.
Qed.

(** X21: What a cache miss loads: the default font, or a file that
    [ImageFont.truetype] opened, which is the first default font for the
    families "Arial" and "default" (in any case) and the file found by
    name for every other family.  A family that is not found, a file that
    does not open, and an empty default list all end in the default
    font. *)
Theorem load_font_miss (m : Machine) (self : Renderer) (font_type : string)
    (font_size : Z) :
  font_cache self (cache_key font_type font_size) = None ->
  let font := fst (_load_font m self font_type font_size) in
  font = load_default m \/
  exists font_path,
    truetype m font_path font_size = Ok font /\
    if String.eqb (lower font_type) "default" || String.eqb (lower font_type) "arial"
    then hd_error (default_fonts self) = Some font_path /\ font_path <> "default"
    else _find_font_path m font_type = Some font_path.
Proof.
  intros Hmiss. unfold _load_font. rewrite Hmiss. cbn [fst].
  unfold load_font_try.
  assert (Hdefault :
            forall first rest,
              default_fonts self = first :: rest ->
              let fp := if negb (String.eqb first "default") then Some first else None in
              match font_at m fp font_size with
              | Returned font => font
              | Threw _ => load_default m
              end = load_default m \/
              exists font_path,
                truetype m font_path font_size
                = Ok match font_at m fp font_size with
                     | Returned font => font
                     | Threw _ => load_default m
                     end /\
                hd_error (default_fonts self) = Some font_path /\
                font_path <> "default").
  { intros first rest Hd fp.
    destruct (font_at_cases m fp font_size) as [Hl | (p & f & Hp & _ & Ht & Hr)];
      [now left |].
    right. exists p. rewrite Hr, Hd. unfold fp in Hp.
    destruct (String.eqb_spec first "default"); cbn [negb] in Hp; [discriminate Hp |].
    injection Hp as <-. auto. }
  destruct (String.eqb (lower font_type) "default"); cbn [negb andb orb].
  - destruct (default_fonts self) as [| first rest] eqn:Hd; [now left |].
    exact (Hdefault first rest eq_refl).
  - destruct (String.eqb (lower font_type) "arial"); cbn [negb].
    + destruct (default_fonts self) as [| first rest] eqn:Hd; [now left |].
      exact (Hdefault first rest eq_refl).
    + destruct (font_at_cases m (_find_font_path m font_type) font_size)
        as [Hl | (p & f & Hp & _ & Ht & Hr)]; [now left |].
      right. exists p. rewrite Hr. auto.
Qed.

Lemma load_font_miss_witness :
  let font := fst (_load_font linux_machine (new_Renderer linux_machine) "Roboto" 24) in
  font = load_default linux_machine \/
  exists font_path,
    truetype linux_machine font_path 24 = Ok font /\
    _find_font_path linux_machine "Roboto" = Some font_path.
Proof.
  apply (load_font_miss linux_machine (new_Renderer linux_machine) "Roboto" 24).
  reflexivity.
Defined.

Lemma load_font_keeps_default_fonts (m : Machine) (self : Renderer)
    (font_type : string) (font_size : Z) :
  default_fonts (snd (_load_font m self font_type font_size)) = default_fonts self.
Proof.
  unfold _load_font. now destruct (font_cache self (cache_key font_type font_size)).
Qed.

(** X22: A renderer built by its constructor never runs into an empty default
    list: after any sequence of loads, on any state of the machine, its
    default list is still the non-empty list found at construction, and
    the loading body does not raise [IndexError]. *)
Theorem constructed_renderer_has_default (m0 m : Machine)
    (loads : list (Machine * string * Z)) (font_type : string) (font_size : Z) :
  let self :=
    fold_left (fun r '(mi, t, s) => snd (_load_font mi r t s)) loads (new_Renderer m0) in
  default_fonts self = _get_default_fonts m0 /\
  default_fonts self <> [] /\
  load_font_try m self font_type font_size <> Threw IndexError.
Proof.
  intros self.
  assert (Hfold : forall ls r,
             default_fonts
               (fold_left (fun r '(mi, t, s) => snd (_load_font mi r t s)) ls r)
             = default_fonts r).
  { induction ls as [| [[mi t] s] ls IH]; intros r; cbn [fold_left]; [reflexivity |].
    now rewrite IH, load_font_keeps_default_fonts. }
  assert (Hdef : default_fonts self = _get_default_fonts m0)
    by (unfold self; now rewrite Hfold).
  pose proof (get_default_fonts_nonempty m0) as Hne.
  split; [exact Hdef |]. split; [now rewrite Hdef |].
  assert (Hat : forall fp, font_at m fp font_size <> Threw IndexError).
  { intros fp. unfold font_at. destruct fp as [p |]; [| discriminate].
    destruct (String.length p =? 0)%nat; [discriminate |].
    destruct (truetype m p font_size); discriminate. }
  unfold load_font_try. rewrite Hdef.
  destruct (negb _ && negb _); [apply Hat |].
  destruct (_get_default_fonts m0) as [| first rest]; [contradiction | apply Hat].
Qed.

End FontFacts.

(** ** The overlay timeline *)

Module TimelineFacts.
Import Py PyFacts Schemas CaptionRenderer VideoProcessor Reference Timeline.

Section Processor.

Variable _load_font : string -> Z -> ImageFont.
Variable video_size : string -> result (Z * Z).
Variable write_videofile : string -> list ImageClip -> string -> result unit.

(** The clip the processor makes of one segment, in a frame of the given
    size. *)
Local Abbreviation caption_clip_of :=
  (fun (vw vh : Z) (style : CaptionStyle) (segment : CaptionSegment) (clip : ImageClip) =>
     create_caption_image _load_font (text segment) vw vh style ratio_0_8
       = Ok (clip_image clip) /\
     clip_start clip = start_time segment /\
     clip_duration clip = PrimFloat.sub (end_time segment) (start_time segment) /\
     clip_y clip =
       _calculate_caption_position vh (snd (size (clip_image clip)))
         (position style) (padding style)).

Lemma caption_clips_loop_ok (vw vh : Z) (style : CaptionStyle)
    (segments : list CaptionSegment) :
  forall acc clips,
    caption_clips_loop _load_font vw vh style segments acc = Ok clips ->
    exists new,
      clips = acc ++ new /\ Forall2 (caption_clip_of vw vh style) segments new.
Proof.
  induction segments as [| seg rest IH]; intros acc clips Hrun.
  - cbn in Hrun. injection Hrun as <-. exists []. split; [now rewrite app_nil_r | constructor].
  - cbn [caption_clips_loop] in Hrun.
    destruct (create_caption_image _load_font (text seg) vw vh style ratio_0_8)
      as [img | e] eqn:Himg; cbn [bind] in Hrun; [| discriminate Hrun].
    cbv zeta in Hrun. apply IH in Hrun as (new & -> & Hnew).
    eexists (_ :: new). split; [now rewrite <- app_assoc |].
    constructor; [| exact Hnew]. cbn. auto.
Qed.


(** X23: What [create_captioned_video] hands to the encoder when it returns:
    one clip per segment, in the order of the segments; each clip shows
    the caption image of its segment from the segment's start for the
    segment's span, at the height the resolver gives for the height of
    that image; and the path returned is the output path. *)
Theorem captioned_video_clips (video_path output_path : string)
    (segments : list CaptionSegment) (style : CaptionStyle) (out : string) :
  create_captioned_video _load_font video_size write_videofile video_path
    segments style output_path = Ok out ->
  out = output_path /\
  exists vw vh clips,
    video_size video_path = Ok (vw, vh) /\
    write_videofile video_path clips output_path = Ok tt /\
    Forall2
      (fun segment clip =>
         create_caption_image _load_font (text segment) vw vh style ratio_0_8
           = Ok (clip_image clip) /\
         clip_start clip = start_time segment /\
         clip_duration clip = PrimFloat.sub (end_time segment) (start_time segment) /\
         clip_y clip =
           _calculate_caption_position vh (snd (size (clip_image clip)))
             (position style) (padding style))
      segments clips.
Proof.
  unfold create_captioned_video. intros Hrun.
  destruct (video_size video_path) as [[vw vh] | e]; cbn [bind] in Hrun;
    [| discriminate Hrun].
  destruct (caption_clips_loop _load_font vw vh style segments []) as [clips | e] eqn:Hloop;
    cbn [bind] in Hrun; [| discriminate Hrun].
  destruct (write_videofile video_path clips output_path) as [[] | e] eqn:Hw;
    cbn [bind] in Hrun; [| discriminate Hrun].
  injection Hrun as <-. split; [reflexivity |].
  apply caption_clips_loop_ok in Hloop as (new & -> & Hnew).
  exists vw, vh, new. auto.
Qed.


(** X25: With the default mode "bottom", and with every mode other than "top"
    and "center", the lower edge of each caption image lies [padding]
    pixels above the lower edge of the frame. *)
Theorem captioned_video_bottom_margin (video_path output_path : string)
    (segments : list CaptionSegment) (style : CaptionStyle) (out : string) :
  lower (position style) <> "top" -> lower (position style) <> "center" ->
  create_captioned_video _load_font video_size write_videofile video_path
    segments style output_path = Ok out ->
  exists vw vh clips,
    video_size video_path = Ok (vw, vh) /\
    write_videofile video_path clips output_path = Ok tt /\
    List.length clips = List.length segments /\
    Forall (fun clip =>
              clip_y clip + snd (size (clip_image clip)) + padding style = vh)
      clips.
Proof.
  intros Htop Hcenter Hrun. unfold create_captioned_video in Hrun.
  destruct (video_size video_path) as [[vw vh] | e]; cbn [bind] in Hrun;
    [| discriminate Hrun].
  destruct (caption_clips_loop _load_font vw vh style segments []) as [clips | e] eqn:Hloop;
    cbn [bind] in Hrun; [| discriminate Hrun].
  destruct (write_videofile video_path clips output_path) as [[] | e] eqn:Hw;
    cbn [bind] in Hrun; [| discriminate Hrun].
  apply caption_clips_loop_ok in Hloop as (new & -> & Hnew).
  exists vw, vh, new. split; [reflexivity |]. split; [exact Hw |].
  split; [symmetry; exact (Forall2_length Hnew) |].
  clear Hw Hrun. induction Hnew as [| seg clip segs clips (_ & _ & _ & Hy) _ IH];
    constructor; [| exact IH].
  rewrite Hy. unfold _calculate_caption_position.
  destruct (String.eqb_spec (lower (position style)) "top"); [contradiction |].
  destruct (String.eqb_spec (lower (position style)) "center"); [contradiction |].
  lia.
Qed.

(** The clip the processor makes of one word of a segment. *)
Local Abbreviation word_clip_of :=
  (fun (vw vh : Z) (style : CaptionStyle) (segment : CaptionSegment)
       (timing : WordTiming) (clip : ImageClip) =>
     create_word_highlighted_caption _load_font (text segment) (word timing)
       vw vh style default_highlight_color = Ok (clip_image clip) /\
     clip_start clip = start timing /\
     clip_duration clip = PrimFloat.sub (end_ timing) (start timing) /\
     clip_y clip =
       _calculate_caption_position vh (snd (size (clip_image clip)))
         (position style) (padding style)).

Lemma word_clips_loop_ok (vw vh : Z) (style : CaptionStyle) (segment : CaptionSegment)
    (timings : list WordTiming) :
  forall acc clips,
    word_clips_loop _load_font vw vh style segment timings acc = Ok clips ->
    exists new,
      clips = acc ++ new /\ Forall2 (word_clip_of vw vh style segment) timings new.
Proof.
  induction timings as [| t rest IH]; intros acc clips Hrun.
  - cbn in Hrun. injection Hrun as <-. exists []. split; [now rewrite app_nil_r | constructor].
  - cbn [word_clips_loop] in Hrun.
    destruct (create_word_highlighted_caption _load_font (text segment) (word t)
                vw vh style default_highlight_color)
      as [img | e] eqn:Himg; cbn [bind] in Hrun; [| discriminate Hrun].
    cbv zeta in Hrun. apply IH in Hrun as (new & -> & Hnew).
    eexists (_ :: new). split; [now rewrite <- app_assoc |].
    constructor; [| exact Hnew]. cbn. auto.
Qed.

Lemma highlight_clips_loop_ok (vw vh : Z) (style : CaptionStyle)
    (segments : list CaptionSegment) :
  forall acc clips,
    highlight_clips_loop _load_font vw vh style segments acc = Ok clips ->
    exists groups,
      clips = acc ++ List.concat groups /\
      Forall2
        (fun segment group =>
           Forall2 (word_clip_of vw vh style segment)
             (_split_segment_into_words segment) group)
        segments groups.
Proof.
  induction segments as [| seg rest IH]; intros acc clips Hrun.
  - cbn in Hrun. injection Hrun as <-. exists []. split; [now rewrite app_nil_r | constructor].
  - cbn [highlight_clips_loop] in Hrun. cbv zeta in Hrun.
    destruct (word_clips_loop _load_font vw vh style seg
                (_split_segment_into_words seg) acc) as [mid | e] eqn:Hseg;
      cbn [bind] in Hrun; [| discriminate Hrun].
    apply word_clips_loop_ok in Hseg as (new & -> & Hnew).
    apply IH in Hrun as (groups & -> & Hgroups).
    exists (new :: groups). split; [cbn [List.concat]; now rewrite app_assoc |].
    now constructor.
Qed.

Lemma split_segment_words (segment : CaptionSegment) :
  map word (_split_segment_into_words segment) = split (text segment).
Proof.
  rewrite TimingFacts.split_segment_closed_form. cbv zeta.
  apply TimingFacts.timings_from_words.
Qed.

(** X26: What [create_word_highlighted_video] hands to the encoder when it
    returns: for each segment, in order, one clip per word timing of the
    segment, in order, showing the segment's caption with that word as
    the current word, from the word's start for the word's span; so there
    are as many clips as there are words in all segments, and a segment
    without words adds none. *)
Theorem highlighted_video_clips (video_path output_path : string)
    (segments : list CaptionSegment) (style : CaptionStyle) (out : string) :
  create_word_highlighted_video _load_font video_size write_videofile video_path
    segments style output_path = Ok out ->
  exists vw vh groups,
    video_size video_path = Ok (vw, vh) /\
    write_videofile video_path (List.concat groups) output_path = Ok tt /\
    Forall2
      (fun segment group =>
         Forall2
           (fun timing clip =>
              create_word_highlighted_caption _load_font (text segment)
                (word timing) vw vh style default_highlight_color
                = Ok (clip_image clip) /\
              clip_start clip = start timing /\
              clip_duration clip = PrimFloat.sub (end_ timing) (start timing))
           (_split_segment_into_words segment) group /\
         List.length group = List.length (split (text segment)))
      segments groups /\
    List.length (List.concat groups)
    = List.length (flat_map (fun segment => split (text segment)) segments).
Proof.
  unfold create_word_highlighted_video. intros Hrun.
  destruct (video_size video_path) as [[vw vh] | e]; cbn [bind] in Hrun;
    [| discriminate Hrun].
  destruct (highlight_clips_loop _load_font vw vh style segments [])
    as [clips | e] eqn:Hloop; cbn [bind] in Hrun; [| discriminate Hrun].
  destruct (write_videofile video_path clips output_path) as [[] | e] eqn:Hw;
    cbn [bind] in Hrun; [| discriminate Hrun].
  apply highlight_clips_loop_ok in Hloop as (groups & -> & Hgroups).
  cbn [app] in Hw.
  exists vw, vh, groups. split; [reflexivity |]. split; [exact Hw |].
  clear Hw Hrun.
  induction Hgroups as [| seg group segs groups Hg _ [IH1 IH2]];
    [split; [constructor | reflexivity] |].
  assert (Hlen : List.length group = List.length (split (text seg))).
  { rewrite <- (split_segment_words seg), length_map.
    symmetry. exact (Forall2_length Hg). }
  split.
  - constructor; [| exact IH1]. split; [| exact Hlen].
    eapply Forall2_impl; [| exact Hg].
    intros t c (Himg & Hs & Hd & _). auto.
  - cbn [List.concat flat_map]. now rewrite !length_app, IH2, Hlen.
Qed.


End Processor.

Lemma captioned_video_clips_witness :
  exists out,
    create_captioned_video Samples.load_mono Shapes.video_1080p Shapes.encoder_ok
      "in.mp4" [Samples.hello_segment] default_CaptionStyle "out.mp4" = Ok out /\
    out = "out.mp4".
Proof.
  eexists. split; [vm_compute; reflexivity |].
  apply (captioned_video_clips Samples.load_mono Shapes.video_1080p Shapes.encoder_ok
           "in.mp4" "out.mp4" [Samples.hello_segment] default_CaptionStyle "out.mp4").
  vm_compute. reflexivity.
Defined.


Lemma captioned_video_bottom_margin_witness :
  exists vw vh clips,
    Shapes.video_1080p "in.mp4" = Ok (vw, vh) /\
    Shapes.encoder_ok "in.mp4" clips "out.mp4" = Ok tt /\
    List.length clips = 1%nat /\
    Forall (fun clip => clip_y clip + snd (size (clip_image clip)) + 10 = vh) clips.
Proof.
  apply (captioned_video_bottom_margin Samples.load_mono Shapes.video_1080p
           Shapes.encoder_ok "in.mp4" "out.mp4" [Samples.hello_segment]
           default_CaptionStyle "out.mp4").
  - vm_compute. discriminate.
  - vm_compute. discriminate.
  - vm_compute. reflexivity.
Defined.

Lemma highlighted_video_clips_witness :
  exists vw vh groups,
    Shapes.video_1080p "in.mp4" = Ok (vw, vh) /\
    Shapes.encoder_ok "in.mp4" (List.concat groups) "out.mp4" = Ok tt /\
    List.length (List.concat groups) = 3%nat.
Proof.
  destruct (highlighted_video_clips Samples.load_mono Shapes.video_1080p
              Shapes.encoder_ok "in.mp4" "out.mp4" [Samples.hello_segment]
              default_CaptionStyle "out.mp4" ltac:(vm_compute; reflexivity))
    as (vw & vh & groups & Hs & Hw & _ & Hlen).
  exists vw, vh, groups. auto.
Defined.


End TimelineFacts.

(** ** From the recogniser to segments *)

Module TranscriptionFacts.
Import Py PyFacts PyExt PyExtFacts Schemas VideoProcessor Transcription.

(** The items of a recogniser result, none when the key is missing. *)
Local Abbreviation items_of :=
  (fun r : WhisperResult =>
     match result_segments r with
     | Some l => l
     | None => []
     end).

(** What one item becomes. *)
Local Abbreviation converted :=
  (fun (item : WhisperSegment) (seg : CaptionSegment) =>
     seg_start item = Some (start_time seg) /\
     seg_end item = Some (end_time seg) /\
     (exists t, seg_text item = Some t /\ text seg = strip t) /\
     confidence seg = seg_avg_logprob item).

Lemma convert_loop_ok (items : list WhisperSegment) :
  forall acc segs,
    convert_loop items acc = Returned segs ->
    exists new, segs = acc ++ new /\ Forall2 converted items new.
Proof.
  induction items as [| item rest IH]; intros acc segs Hrun.
  - cbn in Hrun. injection Hrun as <-. exists []. split; [now rewrite app_nil_r | constructor].
  - cbn [convert_loop] in Hrun.
    destruct (seg_start item) as [s |] eqn:Hs; cbn in Hrun; [| discriminate Hrun].
    destruct (seg_end item) as [e |] eqn:He; cbn in Hrun; [| discriminate Hrun].
    destruct (seg_text item) as [t |] eqn:Ht; cbn in Hrun; [| discriminate Hrun].
    apply IH in Hrun as (new & -> & Hnew).
    eexists (_ :: new). split; [now rewrite <- app_assoc |].
    constructor; [| exact Hnew]. cbn. repeat split; eauto.
Qed.

Lemma convert_loop_complete (items : list WhisperSegment) :
  Forall (fun item => seg_start item <> None /\ seg_end item <> None
                      /\ seg_text item <> None) items ->
  forall acc, exists segs, convert_loop items acc = Returned segs.
Proof.
  induction 1 as [| item rest (Hs & He & Ht) _ IH]; intros acc; cbn [convert_loop].
  - eauto.
  - destruct (seg_start item); [| contradiction].
    destruct (seg_end item); [| contradiction].
    destruct (seg_text item); [| contradiction]. cbn. apply IH.
Qed.

Lemma convert_loop_threw (items : list WhisperSegment) :
  forall acc r,
    convert_loop items acc = Threw r ->
    exists item key,
      In item items /\ r = KeyError key /\
      ((key = "start" /\ seg_start item = None) \/
       (key = "end" /\ seg_end item = None) \/
       (key = "text" /\ seg_text item = None)).
Proof.
  induction items as [| item rest IH]; intros acc r Hrun; [discriminate Hrun |].
  cbn [convert_loop] in Hrun.
  destruct (seg_start item) as [s |] eqn:Hs; cbn in Hrun;
    [| injection Hrun as <-; exists item, "start"; split; [now left | auto]].
  destruct (seg_end item) as [e |] eqn:He; cbn in Hrun;
    [| injection Hrun as <-; exists item, "end"; split; [now left | auto]].
  destruct (seg_text item) as [t |] eqn:Ht; cbn in Hrun;
    [| injection Hrun as <-; exists item, "text"; split; [now left | auto 6]].
  apply IH in Hrun as (it & key & Hin & Hr & Hk).
  exists it, key. split; [now right | auto].
Qed.

(** X28: When the conversion returns, it returns one segment per item of the
    recogniser result, in the same order: start and end as given, the
    text stripped of the whitespace around it, the confidence the item's
    [avg_logprob], or none when the item has none.  A result without the
    "segments" key converts to no segment at all. *)
Theorem convert_segments_returned (r : WhisperResult) (segs : list CaptionSegment) :
  _convert_to_segments r = Returned segs ->
  Forall2
    (fun item seg =>
       seg_start item = Some (start_time seg) /\
       seg_end item = Some (end_time seg) /\
       (exists t, seg_text item = Some t /\ text seg = strip t) /\
       confidence seg = seg_avg_logprob item)
    (items_of r) segs /\
  (result_segments r = None -> segs = []).
Proof.
  unfold _convert_to_segments. intros Hrun. split.
  - apply convert_loop_ok in Hrun as (new & -> & Hnew). exact Hnew.
  - intros Hnone. rewrite Hnone in Hrun. cbn in Hrun. now injection Hrun.
Qed.

(** X29: The conversion returns exactly when every item has its "start", "end"
    and "text"; otherwise it raises [KeyError] for a key that an item
    lacks, and no segment is returned, not even those before that item. *)
Theorem convert_segments_all_or_nothing (r : WhisperResult) :
  ((exists segs, _convert_to_segments r = Returned segs) <->
   Forall (fun item => seg_start item <> None /\ seg_end item <> None
                       /\ seg_text item <> None) (items_of r)) /\
  (forall raised,
     _convert_to_segments r = Threw raised ->
     exists item key,
       In item (items_of r) /\ raised = KeyError key /\
       ((key = "start" /\ seg_start item = None) \/
        (key = "end" /\ seg_end item = None) \/
        (key = "text" /\ seg_text item = None))).
Proof.
  unfold _convert_to_segments. split; [split |].
  - intros [segs Hrun]. apply convert_loop_ok in Hrun as (new & _ & Hnew).
    clear -Hnew. induction Hnew as [| item seg items segs (Hs & He & (t & Ht & _) & _) _ IH];
      constructor; [| exact IH].
    rewrite Hs, He, Ht. repeat split; discriminate.
  - intros Hall. now apply convert_loop_complete.
  - intros raised Hrun. now apply convert_loop_threw in Hrun.
Qed.

(** X30: Stripping does not change the words: the word timings computed for a
    converted segment carry, in order, the words of the text as the
    recogniser gave it; an item whose text is blank yields a segment
    without any word timing. *)
Theorem converted_segment_words (r : WhisperResult) (segs : list CaptionSegment) :
  _convert_to_segments r = Returned segs ->
  Forall2
    (fun item seg =>
       exists t,
         seg_text item = Some t /\
         map word (_split_segment_into_words seg) = split t /\
         (split t = [] -> _split_segment_into_words seg = []))
    (items_of r) segs.
Proof.
  unfold _convert_to_segments. intros Hrun.
  apply convert_loop_ok in Hrun as (new & -> & Hnew). cbn [app].
  eapply Forall2_impl; [| exact Hnew].
  intros item seg (_ & _ & (t & Ht & Htext) & _).
  exists t. split; [exact Ht |].
  assert (Hwords : map word (_split_segment_into_words seg) = split t).
  { rewrite TimingFacts.split_segment_closed_form. cbv zeta.
    rewrite TimingFacts.timings_from_words, Htext. apply split_strip. }
  split; [exact Hwords |].
  intros Hblank. rewrite Hblank in Hwords.
  now destruct (_split_segment_into_words seg).
Qed.

Lemma convert_segments_returned_witness :
  exists segs,
    _convert_to_segments Shapes.two_items = Returned segs /\
    map text segs = ["Hello world"; ""].
Proof.
  destruct (_convert_to_segments Shapes.two_items) as [segs | raised] eqn:Hrun;
    [| vm_compute in Hrun; discriminate Hrun].
  exists segs. split; [reflexivity |].
  destruct (convert_segments_returned Shapes.two_items segs Hrun) as [Hall _].
  vm_compute in Hrun. injection Hrun as <-. reflexivity.
Defined.

Lemma convert_segments_all_or_nothing_witness :
  exists item key,
    In item [Shapes.item_hello; Shapes.item_no_end] /\
    KeyError "end" = KeyError key /\
    ((key = "start" /\ seg_start item = None) \/
     (key = "end" /\ seg_end item = None) \/
     (key = "text" /\ seg_text item = None)).
Proof.
  apply (convert_segments_all_or_nothing
           {| result_segments := Some [Shapes.item_hello; Shapes.item_no_end] |}).
  reflexivity.
Defined.

Lemma converted_segment_words_witness :
  Forall2
    (fun item seg =>
       exists t,
         seg_text item = Some t /\
         map word (_split_segment_into_words seg) = split t /\
         (split t = [] -> _split_segment_into_words seg = []))
    [Shapes.item_hello; Shapes.item_blank]
    [ {| start_time := 0; end_time := 2; text := "Hello world"; confidence := None |};
      {| start_time := 2; end_time := 3; text := ""; confidence := None |} ].
Proof.
  apply (converted_segment_words Shapes.two_items). vm_compute. reflexivity.
Defined.

End TranscriptionFacts.
